(** * localstack: EC2 response patcher and async utilities

    A shallow embedding of
      - [localstack/services/ec2/ec2_listener.py]  (module [Ec2Listener])
      - [localstack/utils/async_utils.py]          (module [AsyncUtils])
    together with the properties of the two files that the specification
    states.  Python [str] values are lists of Unicode code points, [bytes]
    values are lists of octets, both carried by [Z]; dictionaries are
    [gmap]s; mutable objects that are shared between threads live in an
    explicit world record. *)

From Stdlib Require Import ZArith Lia Ascii String DecimalString.
From stdpp Require Import base option list gmap strings.

Local Open Scope Z_scope.

(** ** Python values shared by both modules *)

(** [str(n)] for a non-negative integer: its decimal numeral. *)
Definition py_str (n : nat) : string := NilEmpty.string_of_uint (Nat.to_uint n).

(** A [str] literal as the list of its code points. *)
Definition lit (s : string) : list Z :=
  map (fun a => Z.of_N (N_of_ascii a)) (list_ascii_of_string s).

Module Ec2Listener.

(** *** Text and bytes *)

(** [response._content] holds either a [bytes] object or, once the listener
    has run, a [str]. *)
Inductive content :=
| Bytes (b : list Z)
| Str (s : list Z).

Record Response := {
  _content : content;
  headers : gmap string string
}.

Definition continuation (b : Z) : bool := (128 <=? b) && (b <=? 191).

(** The admissible second octet of a three-octet sequence: no overlong forms
    after 0xE0, no surrogates after 0xED. *)
Definition second_of_three (b0 b1 : Z) : bool :=
  if b0 =? 224 then (160 <=? b1) && (b1 <=? 191)
  else if b0 =? 237 then (128 <=? b1) && (b1 <=? 159)
  else continuation b1.

(** The admissible second octet of a four-octet sequence: no overlong forms
    after 0xF0, nothing above U+10FFFF after 0xF4. *)
Definition second_of_four (b0 b1 : Z) : bool :=
  if b0 =? 240 then (144 <=? b1) && (b1 <=? 191)
  else if b0 =? 244 then (128 <=? b1) && (b1 <=? 143)
  else continuation b1.

(** Modelled from the spec: [to_str] of [localstack.utils.common] is imported, not
    defined, by the listener; section 6 says the patcher "attempt[s] to decode [the
    buffer] as text" and that decoding can fail.  [bytes.decode('utf-8')] with
    strict error handling: [None] stands for the [UnicodeDecodeError]. *)
Fixpoint utf8_decode (bs : list Z) : option (list Z) :=
  match bs with
  | [] => Some []
  | b0 :: r0 =>
    if (0 <=? b0) && (b0 <=? 127) then cons b0 <$> utf8_decode r0
    else match r0 with
    | [] => None
    | b1 :: r1 =>
      if (194 <=? b0) && (b0 <=? 223) then
        if continuation b1
        then cons ((b0 - 192) * 64 + (b1 - 128)) <$> utf8_decode r1
        else None
      else match r1 with
      | [] => None
      | b2 :: r2 =>
        if (224 <=? b0) && (b0 <=? 239) then
          if second_of_three b0 b1 && continuation b2
          then cons ((b0 - 224) * 4096 + (b1 - 128) * 64 + (b2 - 128))
                 <$> utf8_decode r2
          else None
        else match r2 with
        | [] => None
        | b3 :: r3 =>
          if (240 <=? b0) && (b0 <=? 244) && second_of_four b0 b1
             && continuation b2 && continuation b3
          then cons ((b0 - 240) * 262144 + (b1 - 128) * 4096
                     + (b2 - 128) * 64 + (b3 - 128)) <$> utf8_decode r3
          else None
        end
      end
    end
  end.

(** The UTF-8 octets of one code point; [None] for a value that is no
    Unicode scalar ([str.encode] raises there). *)
Definition utf8_encode_char (c : Z) : option (list Z) :=
  if (0 <=? c) && (c <=? 127) then Some [c]
  else if (128 <=? c) && (c <=? 2047) then Some [192 + c / 64; 128 + c mod 64]
  else if ((2048 <=? c) && (c <=? 55295)) || ((57344 <=? c) && (c <=? 65535))
  then Some [224 + c / 4096; 128 + (c / 64) mod 64; 128 + c mod 64]
  else if (65536 <=? c) && (c <=? 1114111)
  then Some [240 + c / 262144; 128 + (c / 4096) mod 64;
             128 + (c / 64) mod 64; 128 + c mod 64]
  else None.

Fixpoint utf8_encode (s : list Z) : option (list Z) :=
  match s with
  | [] => Some []
  | c :: s' =>
    match utf8_encode_char c, utf8_encode s' with
    | Some bs, Some r => Some (bs ++ r)
    | _, _ => None
    end
  end.

(** Modelled from the spec: [to_str] (see [utf8_decode]); text that is
    already a [str] is handed back as it is. *)
Definition to_str (c : content) : option (list Z) :=
  match c with
  | Bytes b => utf8_decode b
  | Str s => Some s
  end.

(** The octets a content value stands for on the wire. *)
Definition wire_bytes (c : content) : option (list Z) :=
  match c with
  | Bytes b => Some b
  | Str s => utf8_encode s
  end.

(** *** The regular expression
    [>\s*([0-9-]+) ([0-9:.]+)Z?\s*</creationTimestamp>] *)

(** [\s] of a [str] pattern: the Unicode white space of CPython's
    [Py_UNICODE_ISSPACE]. *)
Definition is_space (c : Z) : bool :=
  ((9 <=? c) && (c <=? 13)) || ((28 <=? c) && (c <=? 32))
  || (c =? 133) || (c =? 160) || (c =? 5760)
  || ((8192 <=? c) && (c <=? 8202))
  || (c =? 8232) || (c =? 8233) || (c =? 8239) || (c =? 8287) || (c =? 12288).

Definition is_digit (c : Z) : bool := (48 <=? c) && (c <=? 57).

(** [[0-9-]] *)
Definition date_char (c : Z) : bool := is_digit c || (c =? 45).

(** [[0-9:.]] *)
Definition time_char (c : Z) : bool := is_digit c || (c =? 58) || (c =? 46).

Definition closing_tag : list Z := lit "</creationTimestamp>".

(** The longest prefix whose characters satisfy [p], and what follows it: a
    greedy [p*]. *)
Fixpoint span (p : Z -> bool) (s : list Z) : list Z * list Z :=
  match s with
  | c :: s' =>
    if p c then let '(a, b) := span p s' in (c :: a, b) else ([], s)
  | [] => ([], [])
  end.

Fixpoint strip_prefix (pre s : list Z) : option (list Z) :=
  match pre, s with
  | [], _ => Some s
  | a :: pre', c :: s' => if a =? c then strip_prefix pre' s' else None
  | _ :: _, [] => None
  end.

(** [Z?], greedy. *)
Definition skip_Z (s : list Z) : list Z :=
  match s with
  | c :: s' => if c =? 90 then s' else s
  | [] => s
  end.

(** One attempt of the pattern at the head of [s]: the two groups and the
    text after the match.  Every repetition is followed by a character
    outside its class, so the greedy choice is the only one and no
    backtracking alternative exists (see [match_at_iff]). *)
Definition match_at (s : list Z) : option (list Z * list Z * list Z) :=
  match s with
  | c :: s0 =>
    if c =? 62 then
      let '(_, s1) := span is_space s0 in
      let '(g1, s2) := span date_char s1 in
      match g1, s2 with
      | _ :: _, sp :: s3 =>
        if sp =? 32 then
          let '(g2, s4) := span time_char s3 in
          match g2 with
          | _ :: _ =>
            let '(_, s5) := span is_space (skip_Z s4) in
            match strip_prefix closing_tag s5 with
            | Some rest => Some (g1, g2, rest)
            | None => None
            end
          | [] => None
          end
        else None
      | _, _ => None
      end
    else None
  | [] => None
  end.

(** The template [>\1T\2Z</creationTimestamp>]. *)
Definition expand (g1 g2 : list Z) : list Z :=
  lit ">" ++ g1 ++ lit "T" ++ g2 ++ lit "Z" ++ closing_tag.

(** [re.sub]: scan from the left; at a position where the pattern matches,
    emit the template and go on after the match; elsewhere copy one
    character.  The pattern never matches the empty string, so each round
    consumes input and [length s] rounds are enough. *)
Fixpoint sub_from (fuel : nat) (s : list Z) : list Z :=
  match fuel with
  | O => s
  | S fuel' =>
    match s with
    | [] => []
    | c :: s' =>
      match match_at s with
      | Some (g1, g2, rest) => expand g1 g2 ++ sub_from fuel' rest
      | None => c :: sub_from fuel' s'
      end
    end
  end.

Definition re_sub (s : list Z) : list Z := sub_from (length s) s.

(** *** The listener *)

Definition fix_creation_date (method path : string) (response : Response)
  : Response :=
  match to_str (_content response) with
  | None => response
  | Some content =>
    let content' := re_sub content in
    {| _content := Str content';
       headers := <["Content-Length" := py_str (length content')]>
                    (headers response) |}
  end.

(** [if response.content:] is the emptiness test of the payload. *)
Definition truthy (c : content) : bool :=
  match c with
  | Bytes [] | Str [] => false
  | _ => true
  end.

Definition return_response (method path : string) (response : Response)
  : Response :=
  if truthy (_content response) then fix_creation_date method path response
  else response.

(** *** Vocabulary of the statements *)

(** One occurrence of the pattern together with the text in front of it:
    [before], then [>], white space, the date, one space, the time, an
    optional [Z], white space and the closing tag. *)
Record segment := {
  before : list Z;
  lead : list Z;
  date : list Z;
  time : list Z;
  zulu : list Z;
  trail : list Z
}.

Definition occurrence (g : segment) : list Z :=
  lit ">" ++ lead g ++ date g ++ lit " " ++ time g ++ zulu g ++ trail g
  ++ closing_tag.

(** The timestamp an occurrence is rewritten to, and the rewritten
    occurrence. *)
Definition stamp (g : segment) : list Z := date g ++ lit "T" ++ time g ++ lit "Z".

Definition rewritten (g : segment) : list Z := lit ">" ++ stamp g ++ closing_tag.

Definition nonempty (s : list Z) : bool :=
  match s with [] => false | _ :: _ => true end.

Definition optional_Z (s : list Z) : bool :=
  match s with
  | [] => true
  | [c] => c =? 90
  | _ => false
  end.

(** The parts of a segment lie in the classes the pattern gives them. *)
Definition well_formed (g : segment) : bool :=
  forallb is_space (lead g)
  && nonempty (date g) && forallb date_char (date g)
  && nonempty (time g) && forallb time_char (time g)
  && optional_Z (zulu g)
  && forallb is_space (trail g).

(** The pattern matches at none of the first [n] positions of [s]. *)
Fixpoint no_match_before (n : nat) (s : list Z) : bool :=
  match n, s with
  | S n', c :: s' =>
    match match_at s with
    | None => no_match_before n' s'
    | Some _ => false
    end
  | _, _ => true
  end.

(** The pattern occurs nowhere in [s]. *)
Definition no_match_in (s : list Z) : bool := no_match_before (length s) s.

(** A text cut into segments and a last piece. *)
Fixpoint assemble (gs : list segment) (tail : list Z) : list Z :=
  match gs with
  | [] => tail
  | g :: gs' => before g ++ occurrence g ++ assemble gs' tail
  end.

Fixpoint assemble_rewritten (gs : list segment) (tail : list Z) : list Z :=
  match gs with
  | [] => tail
  | g :: gs' => before g ++ rewritten g ++ assemble_rewritten gs' tail
  end.

(** The cut follows the scan of [re.sub]: no match begins inside a [before]
    piece (not even one that would run into the occurrence behind it), and
    none in the last piece. *)
Fixpoint leftmost (gs : list segment) (tail : list Z) : bool :=
  match gs with
  | [] => no_match_in tail
  | g :: gs' =>
    no_match_before (length (before g)) (assemble gs tail) && leftmost gs' tail
  end.

(** Shapes of timestamps, as parsers that hand back the unread text. *)
Fixpoint digits (n : nat) (s : list Z) : option (list Z) :=
  match n with
  | O => Some s
  | S n' =>
    match s with
    | c :: s' => if is_digit c then digits n' s' else None
    | [] => None
    end
  end.

Definition expect (c : Z) (s : list Z) : option (list Z) :=
  match s with
  | c' :: s' => if c =? c' then Some s' else None
  | [] => None
  end.

(** [p] and then [q] on what [p] left unread. *)
Definition and_then (p q : list Z -> option (list Z)) (s : list Z)
  : option (list Z) :=
  match p s with
  | Some r => q r
  | None => None
  end.

Infix "+>" := and_then (at level 65, right associativity).

(** [YYYY-MM-DD] *)
Definition date_shape : list Z -> option (list Z) :=
  digits 4 +> expect 45 +> digits 2 +> expect 45 +> digits 2.

(** [HH:MM:SS] *)
Definition clock_shape : list Z -> option (list Z) :=
  digits 2 +> expect 58 +> digits 2 +> expect 58 +> digits 2.

(** An optional fraction: a dot and one or more digits. *)
Definition fraction_shape (s : list Z) : option (list Z) :=
  match s with
  | c :: s' =>
    if c =? 46 then
      match span is_digit s' with
      | (_ :: _, r) => Some r
      | ([], _) => None
      end
    else Some s
  | [] => Some s
  end.

Definition is_date (s : list Z) : Prop := date_shape s = Some [].

Definition is_time (s : list Z) : Prop :=
  (clock_shape +> fraction_shape) s = Some [].


Definition is_ascii (c : Z) : bool := (0 <=? c) && (c <=? 127).

(** [s] is empty or begins with a character outside the class [p]: a greedy
    [p*] stops in front of it. *)
Definition stops (p : Z -> bool) (s : list Z) : Prop :=
  match s with c :: _ => p c = false | [] => True end.

(** The example of section 8 behind a two-octet character, and a second
    occurrence with white space around the fields, fractional seconds and
    no [Z]. *)
Definition example_bytes : list Z :=
  lit "<a>" ++ [195; 169]
  ++ lit "</a><creationTimestamp>2020-01-01 10:00:00Z</creationTimestamp>"
  ++ lit "<creationTimestamp>" ++ [10; 32]
  ++ lit "2021-12-31 23:59:59.123456 </creationTimestamp><b/>".

Definition example_response : Response :=
  {| _content := Bytes example_bytes; headers := ∅ |}.

Definition example_segments : list segment :=
  [ {| before := lit "<a>" ++ [233] ++ lit "</a><creationTimestamp";
       lead := []; date := lit "2020-01-01"; time := lit "10:00:00";
       zulu := lit "Z"; trail := [] |};
    {| before := lit "<creationTimestamp";
       lead := [10; 32]; date := lit "2021-12-31";
       time := lit "23:59:59.123456"; zulu := []; trail := [32] |} ].

Definition example_rewritten : list Z :=
  lit "<a>" ++ [233]
  ++ lit "</a><creationTimestamp>2020-01-01T10:00:00Z</creationTimestamp>"
  ++ lit "<creationTimestamp>2021-12-31T23:59:59.123456Z</creationTimestamp><b/>".

(** A payload without the pattern: two spaces part date and time. *)
Definition plain_response : Response :=
  {| _content :=
       Bytes (lit "<n>" ++ [195; 169]
              ++ lit "</n><creationTimestamp>2020-01-01  10:00:00</creationTimestamp>");
     headers := {["Content-Length" := "5"]} |}.

(** A payload within ASCII whose timestamp is in the wanted form already. *)
Definition ascii_response : Response :=
  {| _content :=
       Bytes (lit "<creationTimestamp>2020-01-01T10:00:00Z</creationTimestamp>");
     headers := ∅ |}.

(** A payload of one character, U+00E9, which UTF-8 writes in two octets. *)
Definition accented_response : Response :=
  {| _content := Bytes [195; 169]; headers := ∅ |}.

(** *** Vocabulary of the further properties *)

(** The code points UTF-8 has octets for. *)
Definition encodable (c : Z) : bool :=
  match utf8_encode_char c with Some _ => true | None => false end.

(** Any character but [>]. *)
Definition not_gt (c : Z) : bool := negb (c =? 62).

(** The pattern matches at no place of [s] such that the text behind the
    match, read from the [>] that ends it, is matched again. *)
Fixpoint overlap_free_before (n : nat) (s : list Z) : bool :=
  match n, s with
  | S n', c :: s' =>
    match match_at s with
    | Some (_, _, rest) =>
      match match_at (62 :: rest) with
      | Some _ => false
      | None => overlap_free_before n' s'
      end
    | None => overlap_free_before n' s'
    end
  | _, _ => true
  end.

Definition overlap_free (s : list Z) : bool := overlap_free_before (length s) s.

(** In a cut, no occurrence is followed at once by text that is matched
    when read from the [>] closing the occurrence. *)
Fixpoint separated (gs : list segment) (tail : list Z) : bool :=
  match gs with
  | [] => true
  | g :: gs' =>
    match match_at (62 :: assemble gs' tail) with
    | Some _ => false
    | None => separated gs' tail
    end
  end.

(** No occurrence of the pattern is followed at once by text that, read
    from the [>] closing the occurrence, is an occurrence again. *)
Definition no_adjacent_occurrence (s : list Z) : Prop :=
  forall pre g rest g' rest',
    well_formed g = true -> well_formed g' = true ->
    s = pre ++ occurrence g ++ rest -> lit ">" ++ rest <> occurrence g' ++ rest'.

(** *** Proof steps used more than once *)

Ltac split_ifs :=
  repeat match goal with
  | |- context [if ?b then _ else _] => destruct b eqn:?
  end.

Ltac octets := repeat f_equal; Z.div_mod_to_equations; lia.

(** *** Lists, [span] and [strip_prefix] *)

Lemma span_spec p s a b :
  span p s = (a, b) ->
  s = a ++ b /\ forallb p a = true /\ match b with c :: _ => p c = false | [] => True end.
Proof.
  revert a b. induction s as [|c s IH]; intros a b; simpl.
  - intros [= <- <-]. auto.
  - destruct (p c) eqn:Hc.
    + destruct (span p s) as [a' b'] eqn:Hs. intros [= <- <-].
      destruct (IH _ _ eq_refl) as (-> & Ha & Hb). simpl. rewrite Hc. auto.
    + intros [= <- <-]. simpl. auto.
Qed.

Lemma span_app p a b :
  forallb p a = true ->
  match b with c :: _ => p c = false | [] => True end ->
  span p (a ++ b) = (a, b).
Proof.
  intros Ha Hb. induction a as [|c a IH]; simpl in *.
  - destruct b as [|c b]; [reflexivity|]. simpl. now rewrite Hb.
  - apply andb_prop in Ha as [Hc Ha]. rewrite Hc, (IH Ha). reflexivity.
Qed.

Lemma strip_prefix_spec pre s r : strip_prefix pre s = Some r <-> s = pre ++ r.
Proof.
  revert s. induction pre as [|a pre IH]; intros s; simpl.
  - split; [intros [= ->]|intros ->]; reflexivity.
  - destruct s as [|c s].
    + split; [discriminate|]. intros [=].
    + destruct (Z.eqb_spec a c) as [->|Hne].
      * rewrite IH. split; [intros ->; reflexivity| intros [= ->]; reflexivity].
      * split; [discriminate|]. intros [= -> _]. contradiction.
Qed.

Lemma skip_Z_length s : (length (skip_Z s) <= length s)%nat.
Proof. destruct s as [|c s]; simpl; [lia|]. destruct (c =? 90); simpl; lia. Qed.

Lemma match_at_shorter s g1 g2 rest :
  match_at s = Some (g1, g2, rest) -> (length rest < length s)%nat.
Proof.
  unfold match_at. destruct s as [|c s0]; [discriminate|].
  destruct (c =? 62); [|discriminate].
  destruct (span is_space s0) as [w1 s1] eqn:H1.
  destruct (span date_char s1) as [d s2] eqn:H2.
  destruct d as [|d0 d]; [discriminate|].
  destruct s2 as [|sp s3]; [discriminate|].
  destruct (sp =? 32); [|discriminate].
  destruct (span time_char s3) as [t s4] eqn:H3.
  destruct t as [|t0 t]; [discriminate|].
  destruct (span is_space (skip_Z s4)) as [w2 s5] eqn:H4.
  destruct (strip_prefix closing_tag s5) as [r|] eqn:H5; [|discriminate].
  intros [= <- <- <-].
  apply span_spec in H1 as (-> & _ & _), H2 as (E2 & _ & _), H3 as (-> & _ & _),
    H4 as (E4 & _ & _).
  apply strip_prefix_spec in H5 as ->.
  pose proof (skip_Z_length s4) as L. rewrite E4, !length_app in L.
  rewrite E2. repeat (rewrite ?length_app; cbn [length app]). lia.
Qed.

(** *** [re.sub] unfolds one round at a time *)

Lemma sub_from_fuel n : forall m s,
  (length s <= n)%nat -> (length s <= m)%nat -> sub_from n s = sub_from m s.
Proof.
  induction n as [|n IH]; intros m s Hn Hm.
  - destruct s; [|simpl in Hn; lia]. destruct m; reflexivity.
  - destruct s as [|c s]; [destruct m; reflexivity|].
    destruct m as [|m]; [simpl in Hm; lia|].
    cbn [sub_from]. destruct (match_at (c :: s)) as [[[g1 g2] rest]|] eqn:E.
    + apply match_at_shorter in E. f_equal. apply IH; lia.
    + f_equal. simpl in Hn, Hm. apply IH; lia.
Qed.

Lemma re_sub_nil : re_sub [] = [].
Proof. reflexivity. Qed.

Lemma re_sub_match s g1 g2 rest :
  match_at s = Some (g1, g2, rest) -> re_sub s = expand g1 g2 ++ re_sub rest.
Proof.
  intros E. pose proof (match_at_shorter _ _ _ _ E) as L.
  unfold re_sub. destruct s as [|c s]; [discriminate|].
  cbn [length sub_from]. rewrite E. f_equal. apply sub_from_fuel; simpl in L; lia.
Qed.

Lemma re_sub_copy c s :
  match_at (c :: s) = None -> re_sub (c :: s) = c :: re_sub s.
Proof. intros E. unfold re_sub. cbn [length sub_from]. now rewrite E. Qed.

Lemma re_sub_skip pre s :
  no_match_before (length pre) (pre ++ s) = true ->
  re_sub (pre ++ s) = pre ++ re_sub s.
Proof.
  induction pre as [|c pre IH]; [reflexivity|].
  cbn [length app no_match_before].
  destruct (match_at (c :: pre ++ s)) eqn:E; [discriminate|].
  intros H. rewrite (re_sub_copy _ _ E), (IH H). reflexivity.
Qed.

Lemma re_sub_no_match s : no_match_in s = true -> re_sub s = s.
Proof.
  unfold no_match_in. intros H.
  pose proof (re_sub_skip s []) as E. rewrite app_nil_r in E.
  rewrite (E H), re_sub_nil. apply app_nil_r.
Qed.

(** *** The matcher finds exactly the occurrences *)

Lemma stops_app (p q : Z -> bool) a b :
  (forall c, q c = true -> p c = false) ->
  forallb q a = true -> stops p b -> stops p (a ++ b).
Proof.
  intros Hpq Ha Hb. destruct a as [|c a]; [exact Hb|].
  simpl in *. apply andb_prop in Ha as [Hc _]. auto.
Qed.

Lemma space_not_date c : is_space c = true -> date_char c = false.
Proof. unfold is_space, date_char, is_digit. lia. Qed.

Lemma space_not_time c : is_space c = true -> time_char c = false.
Proof. unfold is_space, time_char, is_digit. lia. Qed.

Lemma date_not_space c : date_char c = true -> is_space c = false.
Proof. unfold is_space, date_char, is_digit. lia. Qed.

Lemma space_not_Z c : is_space c = true -> (c =? 90) = false.
Proof. unfold is_space. lia. Qed.

Lemma closing_tag_head : closing_tag = 60 :: lit "/creationTimestamp>".
Proof. reflexivity. Qed.

Lemma occurrence_app g rest :
  occurrence g ++ rest =
  62 :: lead g ++ date g ++ 32 :: time g ++ zulu g ++ trail g ++ closing_tag ++ rest.
Proof. unfold occurrence. rewrite <- !app_assoc. reflexivity. Qed.

Lemma stops_closing p rest : p 60 = false -> stops p (closing_tag ++ rest).
Proof. intros H. rewrite closing_tag_head. exact H. Qed.

Lemma match_at_occurrence g rest :
  well_formed g = true ->
  match_at (occurrence g ++ rest) = Some (date g, time g, rest).
Proof.
  unfold well_formed. rewrite !andb_true_iff.
  intros ((((((Hl & Hd0) & Hd) & Ht0) & Ht) & Hz) & Hr).
  rewrite occurrence_app. unfold match_at. rewrite Z.eqb_refl.
  rewrite (span_app is_space (lead g)); [|assumption|].
  2:{ destruct (date g) as [|d0 d]; [discriminate|]. simpl in Hd |- *.
      apply andb_prop in Hd as [Hd _]. now apply date_not_space. }
  rewrite (span_app date_char (date g)); [|assumption|reflexivity].
  destruct (date g) as [|d0 d] eqn:Ed; [discriminate|]. rewrite Z.eqb_refl.
  assert (Hstop : forall p, p 60 = false -> (forall c, is_space c = true -> p c = false) ->
             stops p (trail g ++ closing_tag ++ rest)).
  { intros p H60 Hsp. eapply stops_app; [exact Hsp|exact Hr|now apply stops_closing]. }
  assert (Hz' : stops time_char (zulu g ++ trail g ++ closing_tag ++ rest) /\
                skip_Z (zulu g ++ trail g ++ closing_tag ++ rest)
                = trail g ++ closing_tag ++ rest).
  { destruct (zulu g) as [|z [|? ?]]; [| |discriminate].
    - split; [apply Hstop; [reflexivity|apply space_not_time]|].
      cbn [app]. pose proof (Hstop (fun c => c =? 90) eq_refl space_not_Z) as Hs.
      destruct (trail g ++ closing_tag ++ rest) as [|c r]; [reflexivity|].
      simpl in Hs |- *. now rewrite Hs.
    - simpl in Hz. apply Z.eqb_eq in Hz as ->. split; reflexivity. }
  destruct Hz' as [Hz1 Hz2].
  rewrite (span_app time_char (time g)); [|assumption|assumption].
  destruct (time g) as [|t0 t] eqn:Et; [discriminate|].
  rewrite Hz2.
  rewrite (span_app is_space (trail g)); [|assumption|now apply stops_closing].
  assert (E : strip_prefix closing_tag (closing_tag ++ rest) = Some rest)
    by now apply strip_prefix_spec.
  rewrite E. reflexivity.
Qed.

Lemma match_at_iff s d t rest :
  match_at s = Some (d, t, rest) <->
  exists g, well_formed g = true /\ date g = d /\ time g = t /\
            s = occurrence g ++ rest.
Proof.
  split.
  - unfold match_at. destruct s as [|c s0]; [discriminate|].
    destruct (Z.eqb_spec c 62) as [->|]; [|discriminate].
    destruct (span is_space s0) as [w1 s1] eqn:H1.
    destruct (span date_char s1) as [d' s2] eqn:H2.
    destruct d' as [|d0 d']; [discriminate|].
    destruct s2 as [|sp s3]; [discriminate|].
    destruct (Z.eqb_spec sp 32) as [->|]; [|discriminate].
    destruct (span time_char s3) as [t' s4] eqn:H3.
    destruct t' as [|t0 t']; [discriminate|].
    destruct (span is_space (skip_Z s4)) as [w2 s5] eqn:H4.
    destruct (strip_prefix closing_tag s5) as [r|] eqn:H5; [|discriminate].
    intros [= <- <- <-].
    apply span_spec in H1 as (-> & Hw1 & _), H2 as (-> & Hd & _),
      H3 as (-> & Ht & _), H4 as (E4 & Hw2 & _).
    apply strip_prefix_spec in H5 as ->.
    exists {| before := []; lead := w1; date := d0 :: d'; time := t0 :: t';
              zulu := if nonempty s4 && (hd 0 s4 =? 90) then [90] else [];
              trail := w2 |}.
    split; [|split; [reflexivity|split; [reflexivity|]]].
    + unfold well_formed. cbn [lead date time zulu trail nonempty].
      rewrite Hw1, Hd, Ht, Hw2. simpl. now destruct (nonempty s4 && (hd 0 s4 =? 90)).
    + rewrite occurrence_app. cbn [lead date time zulu trail]. do 2 f_equal.
      cbn [app]. do 3 f_equal. rewrite <- E4.
      destruct s4 as [|z s4]; [reflexivity|]. simpl.
      destruct (Z.eqb_spec z 90) as [->|]; reflexivity.
  - intros (g & Hg & <- & <- & ->). now apply match_at_occurrence.
Qed.

Lemma expand_rewritten g : expand (date g) (time g) = rewritten g.
Proof. unfold expand, rewritten, stamp. now rewrite <- !app_assoc. Qed.

Lemma re_sub_assemble gs tail :
  forallb well_formed gs = true -> leftmost gs tail = true ->
  re_sub (assemble gs tail) = assemble_rewritten gs tail.
Proof.
  induction gs as [|g gs IH]; cbn [forallb leftmost assemble assemble_rewritten].
  - intros _. apply re_sub_no_match.
  - rewrite !andb_true_iff. intros [Hg Hgs] [Hb Hl].
    rewrite (re_sub_skip _ _ Hb). f_equal.
    rewrite (re_sub_match _ _ _ _ (match_at_occurrence g _ Hg)).
    rewrite expand_rewritten, (IH Hgs Hl). reflexivity.
Qed.

(** *** Shapes *)








Lemma digits_class n s r (p : Z -> bool) :
  (forall c, is_digit c = true -> p c = true) ->
  digits n s = Some r -> exists a, s = a ++ r /\ forallb p a = true /\ length a = n.
Proof.
  intros Hp. revert s. induction n as [|n IH]; intros s; simpl.
  - intros [= ->]. now exists [].
  - destruct s as [|c s]; [discriminate|]. destruct (is_digit c) eqn:Hc; [|discriminate].
    intros H. destruct (IH _ H) as (a & -> & Ha & Hn). exists (c :: a). simpl.
    rewrite (Hp _ Hc), Ha, Hn. auto.
Qed.

(** *** UTF-8: encoding undoes decoding *)

Lemma encode_one b0 :
  (0 <=? b0) && (b0 <=? 127) = true -> utf8_encode_char b0 = Some [b0].
Proof. intros H. unfold utf8_encode_char. now rewrite H. Qed.

Lemma encode_two b0 b1 :
  (194 <=? b0) && (b0 <=? 223) = true -> continuation b1 = true ->
  utf8_encode_char ((b0 - 192) * 64 + (b1 - 128)) = Some [b0; b1].
Proof.
  unfold continuation, utf8_encode_char. intros H0 H1.
  split_ifs; first [exfalso; lia | octets].
Qed.

Lemma encode_three b0 b1 b2 :
  (224 <=? b0) && (b0 <=? 239) = true ->
  second_of_three b0 b1 && continuation b2 = true ->
  utf8_encode_char ((b0 - 224) * 4096 + (b1 - 128) * 64 + (b2 - 128))
  = Some [b0; b1; b2].
Proof.
  unfold second_of_three, continuation, utf8_encode_char. intros H0 H1.
  destruct (b0 =? 224) eqn:?, (b0 =? 237) eqn:?;
    split_ifs; first [exfalso; lia | octets].
Qed.

Lemma encode_four b0 b1 b2 b3 :
  (240 <=? b0) && (b0 <=? 244) && second_of_four b0 b1
    && continuation b2 && continuation b3 = true ->
  utf8_encode_char ((b0 - 240) * 262144 + (b1 - 128) * 4096
                    + (b2 - 128) * 64 + (b3 - 128))
  = Some [b0; b1; b2; b3].
Proof.
  unfold second_of_four, continuation, utf8_encode_char. intros H0.
  destruct (b0 =? 240) eqn:?, (b0 =? 244) eqn:?;
    split_ifs; first [exfalso; lia | octets].
Qed.

Lemma utf8_encode_cons c s bs r :
  utf8_encode_char c = Some bs -> utf8_encode s = Some r ->
  utf8_encode (c :: s) = Some (bs ++ r).
Proof. intros Hc Hs. simpl. now rewrite Hc, Hs. Qed.

Lemma utf8_roundtrip_bounded n : forall bs s,
  (length bs <= n)%nat -> utf8_decode bs = Some s -> utf8_encode s = Some bs.
Proof.
  induction n as [|n IH]; intros bs s Hn.
  - destruct bs; [|simpl in Hn; lia]. now intros [= <-].
  - destruct bs as [|b0 r0]; [now intros [= <-]|].
    cbn [utf8_decode length] in *.
    destruct ((0 <=? b0) && (b0 <=? 127)) eqn:A1.
    { destruct (utf8_decode r0) as [s'|] eqn:E; [|discriminate]. intros [= <-].
      apply (utf8_encode_cons _ _ [b0]); [now apply encode_one|]. apply IH; [lia|assumption]. }
    destruct r0 as [|b1 r1]; [discriminate|]. cbn [length] in Hn.
    destruct ((194 <=? b0) && (b0 <=? 223)) eqn:A2.
    { destruct (continuation b1) eqn:C1; [|discriminate].
      destruct (utf8_decode r1) as [s'|] eqn:E; [|discriminate]. intros [= <-].
      apply (utf8_encode_cons _ _ [b0; b1]); [now apply encode_two|]. apply IH; [lia|assumption]. }
    destruct r1 as [|b2 r2]; [discriminate|]. cbn [length] in Hn.
    destruct ((224 <=? b0) && (b0 <=? 239)) eqn:A3.
    { destruct (second_of_three b0 b1 && continuation b2) eqn:C2; [|discriminate].
      destruct (utf8_decode r2) as [s'|] eqn:E; [|discriminate]. intros [= <-].
      apply (utf8_encode_cons _ _ [b0; b1; b2]); [now apply encode_three|]. apply IH; [lia|assumption]. }
    destruct r2 as [|b3 r3]; [discriminate|]. cbn [length] in Hn.
    match goal with |- context [if ?b then _ else _] => destruct b eqn:C4 end; [|discriminate].
    destruct (utf8_decode r3) as [s'|] eqn:E; [|discriminate]. intros [= <-].
    apply (utf8_encode_cons _ _ [b0; b1; b2; b3]); [now apply encode_four|]. apply IH; [lia|assumption].
Qed.

Lemma utf8_roundtrip bs s : utf8_decode bs = Some s -> utf8_encode s = Some bs.
Proof. apply (utf8_roundtrip_bounded (length bs)). lia. Qed.

Lemma expect_inv c s r : expect c s = Some r -> s = c :: r.
Proof.
  destruct s as [|c' s]; [discriminate|]. simpl.
  destruct (Z.eqb_spec c c') as [->|]; [now intros [= ->]|discriminate].
Qed.

Lemma and_then_inv p q s r :
  (p +> q) s = Some r -> exists m, p s = Some m /\ q m = Some r.
Proof. unfold and_then. destruct (p s) as [m|]; [eauto|discriminate]. Qed.

Lemma forallb_weaken (p q : Z -> bool) l :
  (forall c, p c = true -> q c = true) -> forallb p l = true -> forallb q l = true.
Proof.
  intros Hpq. induction l as [|c l IH]; [reflexivity|]. simpl.
  rewrite !andb_true_iff. intros [Hc Hl]. auto.
Qed.

Lemma is_date_class d :
  is_date d -> nonempty d && forallb date_char d = true.
Proof.
  unfold is_date, date_shape. intros H.
  assert (Hp : forall c, is_digit c = true -> date_char c = true)
    by (intros c Hc; unfold date_char; now rewrite Hc).
  apply and_then_inv in H as (r1 & H1 & H).
  apply and_then_inv in H as (r2 & H2 & H).
  apply and_then_inv in H as (r3 & H3 & H).
  apply and_then_inv in H as (r4 & H4 & H5).
  apply (digits_class _ _ _ _ Hp) in H1 as (a1 & -> & A1 & L1),
    H3 as (a3 & -> & A3 & _), H5 as (a5 & -> & A5 & _).
  apply expect_inv in H2 as ->, H4 as ->.
  destruct a1 as [|c a1]; [discriminate|].
  cbn [nonempty andb app] in *. rewrite app_nil_r.
  change (c :: a1 ++ 45 :: a3 ++ 45 :: a5) with ((c :: a1) ++ [45] ++ a3 ++ [45] ++ a5).
  rewrite !forallb_app, A1, A3, A5. reflexivity.
Qed.

Lemma is_time_class t :
  is_time t -> nonempty t && forallb time_char t = true.
Proof.
  unfold is_time, clock_shape. intros H.
  assert (Hp : forall c, is_digit c = true -> time_char c = true)
    by (intros c Hc; unfold time_char; now rewrite Hc).
  apply and_then_inv in H as (r0 & H & H6).
  apply and_then_inv in H as (r1 & H1 & H).
  apply and_then_inv in H as (r2 & H2 & H).
  apply and_then_inv in H as (r3 & H3 & H).
  apply and_then_inv in H as (r4 & H4 & H5).
  apply (digits_class _ _ _ _ Hp) in H1 as (a1 & -> & A1 & L1),
    H3 as (a3 & -> & A3 & _), H5 as (a5 & -> & A5 & _).
  apply expect_inv in H2 as ->, H4 as ->.
  assert (A6 : forallb time_char r0 = true).
  { unfold fraction_shape in H6. destruct r0 as [|c r]; [reflexivity|].
    destruct (Z.eqb_spec c 46) as [->|]; [|discriminate].
    destruct (span is_digit r) as [a b] eqn:E. destruct a; [discriminate|].
    injection H6 as ->. apply span_spec in E as (-> & Ha & _).
    rewrite app_nil_r. change (forallb time_char (46 :: z :: a))
      with (forallb time_char (z :: a)).
    exact (forallb_weaken _ _ _ Hp Ha). }
  destruct a1 as [|c a1]; [discriminate|].
  cbn [nonempty andb app] in *.
  change (c :: a1 ++ 58 :: a3 ++ 58 :: a5 ++ r0) with ((c :: a1) ++ [58] ++ a3 ++ [58] ++ a5 ++ r0).
  rewrite !forallb_app, A1, A3, A5, A6. reflexivity.
Qed.

(** A date, one space and a time between [>] and the closing tag, with or
    without white space around and a [Z] behind, is an occurrence of the
    pattern. *)
Lemma timestamp_is_well_formed g :
  is_date (date g) -> is_time (time g) ->
  forallb is_space (lead g) = true -> forallb is_space (trail g) = true ->
  optional_Z (zulu g) = true ->
  well_formed g = true.
Proof.
  intros Hd Ht Hl Hr Hz. apply is_date_class in Hd. apply is_time_class in Ht.
  apply andb_prop in Hd as [Hd0 Hd], Ht as [Ht0 Ht].
  unfold well_formed. now rewrite Hl, Hd0, Hd, Ht0, Ht, Hz, Hr.
Qed.

Lemma no_match_before_app n pre s :
  no_match_before n (pre ++ s) = true -> (length pre < n)%nat -> match_at s = None.
Proof.
  revert n. induction pre as [|c pre IH]; intros n H L.
  - destruct n as [|n]; [lia|]. destruct s as [|c s]; [reflexivity|].
    cbn [app no_match_before] in H. now destruct (match_at (c :: s)).
  - destruct n as [|n]; [simpl in L; lia|]. cbn [app no_match_before] in H.
    destruct (match_at (c :: pre ++ s)); [discriminate|].
    apply (IH n H). simpl in L. lia.
Qed.

(** Where the pattern matches somewhere, it matches at a first place. *)
Lemma first_match n : forall s,
  no_match_before n s = false ->
  exists pre s' m, s = pre ++ s' /\ match_at s' = Some m
                   /\ no_match_before (length pre) s = true.
Proof.
  induction n as [|n IH]; intros s; [discriminate|].
  destruct s as [|c s]; [discriminate|]. cbn [no_match_before].
  destruct (match_at (c :: s)) as [m|] eqn:E.
  - intros _. exists [], (c :: s), m. auto.
  - intros H. destruct (IH _ H) as (pre & s' & m & -> & Hm & Hpre).
    exists (c :: pre), s', m. cbn [length app no_match_before]. now rewrite E.
Qed.

Lemma no_match_in_iff s :
  no_match_in s = true <->
  forall pre g rest, well_formed g = true -> s <> pre ++ occurrence g ++ rest.
Proof.
  split.
  - intros H pre g rest Hg ->. unfold no_match_in in H.
    apply no_match_before_app in H.
    + now rewrite (match_at_occurrence g rest Hg) in H.
    + rewrite length_app, occurrence_app. simpl. lia.
  - intros H. destruct (no_match_in s) eqn:E; [reflexivity|]. exfalso.
    apply first_match in E as (pre & s' & [[d t] rest] & -> & Hm & _).
    apply match_at_iff in Hm as (g & Hg & _ & _ & ->).
    now apply (H pre g rest Hg).
Qed.

Lemma scan_cut_bounded n : forall s,
  (length s <= n)%nat ->
  exists gs tail, s = assemble gs tail /\ forallb well_formed gs = true
                  /\ leftmost gs tail = true.
Proof.
  induction n as [|n IH]; intros s L.
  - destruct s; [|simpl in L; lia]. exists [], []. auto.
  - destruct (no_match_in s) eqn:E.
    + exists [], s. auto.
    + apply first_match in E as (pre & s' & [[d t] rest] & -> & Hm & Hpre).
      pose proof (match_at_shorter _ _ _ _ Hm) as Lr.
      apply match_at_iff in Hm as (g & Hg & _ & _ & ->).
      destruct (IH rest) as (gs & tail & -> & Hgs & Hl).
      { rewrite length_app in L. lia. }
      exists ({| before := pre; lead := lead g; date := date g; time := time g;
                 zulu := zulu g; trail := trail g |} :: gs), tail.
      cbn [assemble forallb leftmost before].
      change (occurrence {| before := pre; lead := lead g; date := date g;
                            time := time g; zulu := zulu g; trail := trail g |})
        with (occurrence g).
      change (well_formed {| before := pre; lead := lead g; date := date g;
                             time := time g; zulu := zulu g; trail := trail g |})
        with (well_formed g).
      rewrite Hg, Hgs, Hl, Hpre. auto.
Qed.

(** Property X4.  Every text has a cut that follows the scan, so the
    statement of claim C1 speaks of every decoded payload. *)
Theorem scan_cut_exists s :
  exists gs tail, s = assemble gs tail /\ forallb well_formed gs = true
                  /\ leftmost gs tail = true.
Proof. apply (scan_cut_bounded (length s)). lia. Qed.

(** *** Text within ASCII *)

Lemma utf8_encode_ascii s : forallb is_ascii s = true -> utf8_encode s = Some s.
Proof.
  induction s as [|c s IH]; [reflexivity|]. cbn [forallb utf8_encode].
  rewrite andb_true_iff. intros [Hc Hs]. rewrite (IH Hs).
  unfold utf8_encode_char. unfold is_ascii in Hc. now rewrite Hc.
Qed.

Lemma sub_from_ascii fuel : forall s,
  forallb is_ascii s = true -> forallb is_ascii (sub_from fuel s) = true.
Proof.
  induction fuel as [|fuel IH]; intros s Hs; [exact Hs|].
  cbn [sub_from]. destruct s as [|c s]; [reflexivity|].
  destruct (match_at (c :: s)) as [[[d t] rest]|] eqn:E.
  - apply match_at_iff in E as (g & _ & <- & <- & E).
    rewrite E, occurrence_app in Hs.
    change (62 :: lead g ++ date g ++ 32 :: time g ++ zulu g ++ trail g
            ++ closing_tag ++ rest)
      with ([62] ++ lead g ++ date g ++ [32] ++ time g ++ zulu g ++ trail g
            ++ closing_tag ++ rest) in Hs.
    rewrite !forallb_app, !andb_true_iff in Hs.
    destruct Hs as (_ & _ & Hd & _ & Ht & _ & _ & _ & Hr).
    unfold expand. rewrite !forallb_app, Hd, Ht, (IH _ Hr). reflexivity.
  - cbn [forallb] in Hs |- *. apply andb_prop in Hs as [Hc Hs].
    now rewrite Hc, (IH _ Hs).
Qed.

(** *** The listener *)

Lemma fix_creation_date_decoded method path response s :
  to_str (_content response) = Some s ->
  fix_creation_date method path response
  = {| _content := Str (re_sub s);
       headers := <["Content-Length" := py_str (length (re_sub s))]>
                    (headers response) |}.
Proof. intros H. unfold fix_creation_date. now rewrite H. Qed.

(** A payload that does not decode is handed back as it came, content and
    headers. *)
Lemma undecodable_payload_is_left_alone method path response :
  to_str (_content response) = None ->
  fix_creation_date method path response = response.
Proof. intros H. unfold fix_creation_date. now rewrite H. Qed.

(** What the header is set to: the number of code points of the rewritten
    text, in decimal. *)
Lemma content_length_header method path response s :
  to_str (_content response) = Some s ->
  headers (fix_creation_date method path response) !! "Content-Length"
  = Some (py_str (length (re_sub s))).
Proof.
  intros H. rewrite (fix_creation_date_decoded _ _ _ _ H). cbn [headers].
  apply lookup_insert_eq.
Qed.

(** Property X2.  For a payload within ASCII the rewritten text is within
    ASCII, and the header is the decimal of its length in octets. *)
Theorem content_length_exact_on_ascii method path response s :
  to_str (_content response) = Some s ->
  forallb is_ascii s = true ->
  exists bytes,
    wire_bytes (_content (fix_creation_date method path response)) = Some bytes
    /\ headers (fix_creation_date method path response) !! "Content-Length"
       = Some (py_str (length bytes)).
Proof.
  intros Hs Ha. exists (re_sub s). split.
  - rewrite (fix_creation_date_decoded _ _ _ _ Hs). cbn [_content wire_bytes].
    now apply utf8_encode_ascii, sub_from_ascii.
  - now apply content_length_header.
Qed.

Lemma content_length_exact_on_ascii_witness :
  exists bytes,
    wire_bytes (_content (fix_creation_date "GET" "/" ascii_response)) = Some bytes
    /\ headers (fix_creation_date "GET" "/" ascii_response) !! "Content-Length"
       = Some (py_str (length bytes)).
Proof.
  exact (content_length_exact_on_ascii "GET" "/" ascii_response
           (lit "<creationTimestamp>2020-01-01T10:00:00Z</creationTimestamp>")
           eq_refl eq_refl).
Defined.

(** [return_response] does not touch a response without content. *)
Lemma return_response_skips_empty method path response :
  truthy (_content response) = false ->
  return_response method path response = response.
Proof. intros H. unfold return_response. now rewrite H. Qed.

(** *** The header and the octets *)

Lemma sub_from_forall (P : Z -> bool) fuel :
  (forall c, is_ascii c = true -> P c = true) ->
  forall s, forallb P s = true -> forallb P (sub_from fuel s) = true.
Proof.
  intros HP. induction fuel as [|fuel IH]; intros s Hs; [exact Hs|].
  cbn [sub_from]. destruct s as [|c s]; [reflexivity|].
  destruct (match_at (c :: s)) as [[[d t] rest]|] eqn:E.
  - apply match_at_iff in E as (g & _ & <- & <- & E).
    rewrite E, occurrence_app in Hs.
    change (62 :: lead g ++ date g ++ 32 :: time g ++ zulu g ++ trail g
            ++ closing_tag ++ rest)
      with ([62] ++ lead g ++ date g ++ [32] ++ time g ++ zulu g ++ trail g
            ++ closing_tag ++ rest) in Hs.
    rewrite !forallb_app, !andb_true_iff in Hs.
    destruct Hs as (_ & _ & Hd & _ & Ht & _ & _ & _ & Hr).
    unfold expand. rewrite !forallb_app, Hd, Ht, (IH _ Hr).
    assert (A : forall l, forallb is_ascii l = true -> forallb P l = true)
      by (intros l; apply forallb_weaken, HP).
    rewrite !A by reflexivity. reflexivity.
  - cbn [forallb] in Hs |- *. apply andb_prop in Hs as [Hc Hs].
    now rewrite Hc, (IH _ Hs).
Qed.

Lemma utf8_encode_encodable s bytes :
  utf8_encode s = Some bytes -> forallb encodable s = true.
Proof.
  revert bytes. induction s as [|c s IH]; intros bytes; [reflexivity|].
  cbn [utf8_encode forallb]. unfold encodable at 1.
  destruct (utf8_encode_char c) as [bs|]; [|discriminate].
  destruct (utf8_encode s) as [r|]; [|discriminate]. intros _. exact (IH r eq_refl).
Qed.

Lemma encodable_utf8_encode s :
  forallb encodable s = true -> exists bytes, utf8_encode s = Some bytes.
Proof.
  induction s as [|c s IH]; [now exists []|]. cbn [forallb utf8_encode].
  rewrite andb_true_iff. unfold encodable at 1. intros [Hc Hs].
  destruct (utf8_encode_char c) as [bs|]; [|discriminate].
  destruct (IH Hs) as [r ->]. eauto.
Qed.

Lemma ascii_encodable c : is_ascii c = true -> encodable c = true.
Proof. unfold is_ascii, encodable, utf8_encode_char. now intros ->. Qed.

Lemma utf8_encode_char_length c bs :
  utf8_encode_char c = Some bs ->
  (1 <= length bs)%nat /\ (length bs = 1%nat <-> is_ascii c = true).
Proof.
  unfold utf8_encode_char, is_ascii.
  destruct ((0 <=? c) && (c <=? 127)); [intros [= <-]; simpl; split; [lia|tauto]|].
  repeat match goal with
  | |- context [if ?b then _ else _] => destruct b
  end; intros [= <-]; simpl; (split; [lia|split; [lia|discriminate]]).
Qed.

Lemma utf8_encode_length s : forall bytes,
  utf8_encode s = Some bytes ->
  (length s <= length bytes)%nat
  /\ (length s = length bytes <-> forallb is_ascii s = true).
Proof.
  induction s as [|c s IH]; intros bytes.
  - intros [= <-]. simpl. split; [lia|tauto].
  - cbn [utf8_encode]. destruct (utf8_encode_char c) as [bs|] eqn:Ec; [|discriminate].
    destruct (utf8_encode s) as [r|]; [|discriminate]. intros [= <-].
    destruct (utf8_encode_char_length _ _ Ec) as [L1 E1].
    destruct (IH r eq_refl) as [L2 E2].
    rewrite length_app. cbn [length forallb]. rewrite andb_true_iff. split; [lia|].
    split.
    + intros H. split; [apply E1|apply E2]; lia.
    + intros [Hc Hs]. apply E1 in Hc. apply E2 in Hs. lia.
Qed.

(** Property X1.  For a payload of octets that decode, the rewritten text
    can be written in UTF-8 again, and the [Content-Length] header set by
    the listener never exceeds the number of these octets: it is the number
    of code points, which equals the number of octets exactly when the
    rewritten text is within ASCII and is smaller otherwise. *)
Theorem content_length_never_exceeds_octets method path response b s :
  _content response = Bytes b -> utf8_decode b = Some s ->
  exists bytes,
    wire_bytes (_content (fix_creation_date method path response)) = Some bytes
    /\ headers (fix_creation_date method path response) !! "Content-Length"
       = Some (py_str (length (re_sub s)))
    /\ (length (re_sub s) <= length bytes)%nat
    /\ (length (re_sub s) = length bytes <-> forallb is_ascii (re_sub s) = true).
Proof.
  intros Hb Hs.
  assert (Hd : to_str (_content response) = Some s) by (now rewrite Hb).
  assert (He : forallb encodable (re_sub s) = true).
  { apply sub_from_forall; [apply ascii_encodable|].
    apply (utf8_encode_encodable s b). now apply utf8_roundtrip. }
  apply encodable_utf8_encode in He as [bytes He]. exists bytes.
  rewrite (fix_creation_date_decoded _ _ _ _ Hd). cbn [_content headers wire_bytes].
  split; [exact He|]. split; [apply lookup_insert_eq|].
  now apply utf8_encode_length.
Qed.

Lemma content_length_never_exceeds_octets_witness :
  exists bytes,
    wire_bytes (_content (fix_creation_date "GET" "/" example_response)) = Some bytes
    /\ headers (fix_creation_date "GET" "/" example_response) !! "Content-Length"
       = Some (py_str (length (re_sub (assemble example_segments (lit "<b/>")))))
    /\ (length (re_sub (assemble example_segments (lit "<b/>"))) <= length bytes)%nat
    /\ (length (re_sub (assemble example_segments (lit "<b/>"))) = length bytes
        <-> forallb is_ascii (re_sub (assemble example_segments (lit "<b/>"))) = true).
Proof.
  assert (H : utf8_decode example_bytes = Some (assemble example_segments (lit "<b/>")))
    by (vm_compute; reflexivity).
  exact (content_length_never_exceeds_octets "GET" "/" example_response
           example_bytes (assemble example_segments (lit "<b/>")) eq_refl H).
Defined.

(** *** A second pass *)

Lemma match_at_head c s : c <> 62 -> match_at (c :: s) = None.
Proof. intros H. unfold match_at. apply Z.eqb_neq in H. now rewrite H. Qed.

Lemma first_gt_unique x : forall y a b,
  forallb not_gt x = true -> forallb not_gt y = true ->
  x ++ 62 :: a = y ++ 62 :: b -> x = y /\ a = b.
Proof.
  induction x as [|c x IH]; intros y a b Hx Hy E.
  - destruct y as [|d y]; [now injection E|].
    cbn in E, Hy. injection E as <- _. discriminate.
  - destruct y as [|d y].
    + cbn in E, Hx. injection E as -> _. discriminate.
    + cbn in E, Hx, Hy. injection E as <- E.
      apply andb_prop in Hx as [_ Hx], Hy as [_ Hy].
      destruct (IH _ _ _ Hx Hy E) as [-> ->]. auto.
Qed.

Lemma split_first_gt p :
  exists x q, forallb not_gt x = true /\ p ++ [62] = x ++ 62 :: q.
Proof.
  induction p as [|c p (x & q & Hx & E)]; [now exists [], []|].
  destruct (Z.eqb_spec c 62) as [->|Hc].
  - exists [], (p ++ [62]). auto.
  - exists (c :: x), q. cbn. rewrite E. split; [|reflexivity].
    unfold not_gt at 1. apply Z.eqb_neq in Hc. now rewrite Hc.
Qed.

Lemma space_not_gt c : is_space c = true -> not_gt c = true.
Proof. unfold is_space, not_gt. lia. Qed.
Lemma date_not_gt c : date_char c = true -> not_gt c = true.
Proof. unfold date_char, is_digit, not_gt. lia. Qed.
Lemma time_not_gt c : time_char c = true -> not_gt c = true.
Proof. unfold time_char, is_digit, not_gt. lia. Qed.

Lemma occurrence_shape g :
  well_formed g = true ->
  exists x, forallb not_gt x = true /\ occurrence g = 62 :: x ++ [62].
Proof.
  unfold well_formed. rewrite !andb_true_iff.
  intros ((((((Hl & _) & Hd) & _) & Ht) & Hz) & Hr).
  exists (lead g ++ date g ++ [32] ++ time g ++ zulu g ++ trail g
          ++ lit "</creationTimestamp").
  split.
  - rewrite !forallb_app.
    rewrite (forallb_weaken _ _ _ space_not_gt Hl),
      (forallb_weaken _ _ _ date_not_gt Hd),
      (forallb_weaken _ _ _ time_not_gt Ht),
      (forallb_weaken _ _ _ space_not_gt Hr).
    destruct (zulu g) as [|z [|? ?]]; [reflexivity| |discriminate].
    cbn in Hz. apply Z.eqb_eq in Hz as ->. reflexivity.
  - unfold occurrence. rewrite <- !app_assoc. reflexivity.
Qed.

Lemma match_at_local x r r' d t rest :
  forallb not_gt x = true ->
  match_at (62 :: x ++ 62 :: r) = Some (d, t, rest) ->
  rest = r /\ match_at (62 :: x ++ 62 :: r') = Some (d, t, r').
Proof.
  intros Hx E. apply match_at_iff in E as (g & Hg & <- & <- & E).
  destruct (occurrence_shape g Hg) as (y & Hy & Ey).
  rewrite Ey in E. cbn [app] in E. injection E as E.
  rewrite <- app_assoc in E. cbn [app] in E.
  destruct (first_gt_unique _ _ _ _ Hx Hy E) as [-> ->]. split; [reflexivity|].
  replace (62 :: y ++ 62 :: r') with (occurrence g ++ r')
    by (rewrite Ey; cbn [app]; now rewrite <- app_assoc).
  now apply match_at_occurrence.
Qed.

Lemma match_at_context p r1 r2 :
  match_at (62 :: p ++ 62 :: r1) = None -> match_at (62 :: p ++ 62 :: r2) = None.
Proof.
  destruct (split_first_gt p) as (x & q & Hx & E). intros H1.
  assert (F : forall r, 62 :: p ++ 62 :: r = 62 :: x ++ 62 :: (q ++ r)).
  { intros r. f_equal. change (62 :: r) with ([62] ++ r).
    rewrite app_assoc, E, <- app_assoc. reflexivity. }
  rewrite F in H1 |- *.
  destruct (match_at (62 :: x ++ 62 :: q ++ r2)) as [[[d t] rest]|] eqn:E2;
    [|reflexivity].
  destruct (match_at_local _ _ (q ++ r1) _ _ _ Hx E2) as [_ E1]. congruence.
Qed.

Lemma no_match_before_context p : forall r1 r2,
  no_match_before (length p) (p ++ 62 :: r1) = true ->
  no_match_before (length p) (p ++ 62 :: r2) = true.
Proof.
  induction p as [|c p IH]; intros r1 r2; [reflexivity|].
  cbn [length app no_match_before].
  destruct (match_at (c :: p ++ 62 :: r1)) eqn:E1; [discriminate|]. intros H.
  assert (E2 : match_at (c :: p ++ 62 :: r2) = None).
  { destruct (Z.eqb_spec c 62) as [->|Hc];
      [exact (match_at_context _ _ _ E1)|now apply match_at_head]. }
  rewrite E2. exact (IH _ _ H).
Qed.

Lemma span_stops p s : stops p s -> span p s = ([], s).
Proof. destruct s as [|c s]; [reflexivity|]. cbn. now intros ->. Qed.

Lemma rewritten_no_match g r :
  well_formed g = true -> match_at (rewritten g ++ r) = None.
Proof.
  unfold well_formed. rewrite !andb_true_iff.
  intros ((((((_ & Hd0) & Hd) & _) & _) & _) & _).
  unfold rewritten, stamp. rewrite <- !app_assoc.
  change (lit ">" ++ date g ++ lit "T" ++ time g ++ lit "Z" ++ closing_tag ++ r)
    with (62 :: date g ++ 84 :: time g ++ lit "Z" ++ closing_tag ++ r).
  unfold match_at. rewrite Z.eqb_refl.
  rewrite span_stops.
  2:{ destruct (date g) as [|c d]; [discriminate|]. cbn in Hd |- *.
      apply andb_prop in Hd as [Hc _]. now apply date_not_space. }
  rewrite (span_app date_char (date g)); [|assumption|reflexivity].
  now destruct (date g).
Qed.

Lemma no_match_through y r :
  forallb not_gt y = true -> match_at (62 :: r) = None ->
  no_match_before (length (y ++ [62])) (y ++ 62 :: r) = true.
Proof.
  intros Hy Hr. induction y as [|c y IH].
  - cbn [app length no_match_before]. now rewrite Hr.
  - cbn [forallb] in Hy. apply andb_prop in Hy as [Hc Hy].
    cbn [app length no_match_before]. rewrite match_at_head, (IH Hy); [reflexivity|].
    unfold not_gt in Hc. intros ->. discriminate.
Qed.

Lemma rewritten_shape g :
  well_formed g = true ->
  exists y, forallb not_gt y = true /\ rewritten g = 62 :: y ++ [62].
Proof.
  unfold well_formed. rewrite !andb_true_iff.
  intros ((((((_ & _) & Hd) & _) & Ht) & _) & _).
  exists (date g ++ [84] ++ time g ++ [90] ++ lit "</creationTimestamp").
  split.
  - rewrite !forallb_app, (forallb_weaken _ _ _ date_not_gt Hd),
      (forallb_weaken _ _ _ time_not_gt Ht). reflexivity.
  - unfold rewritten, stamp. rewrite <- !app_assoc. reflexivity.
Qed.

Lemma assemble_head_gt g gs tail :
  exists r, assemble (g :: gs) tail = before g ++ 62 :: r.
Proof. cbn [assemble]. rewrite occurrence_app. eauto. Qed.

Lemma assemble_rewritten_head_gt g gs tail :
  exists r, assemble_rewritten (g :: gs) tail = before g ++ 62 :: r.
Proof.
  cbn [assemble_rewritten]. unfold rewritten. rewrite <- !app_assoc.
  change (lit ">" ++ ?x) with (62 :: x). eauto.
Qed.

Lemma match_after_rewritten gs tail :
  match_at (62 :: assemble gs tail) = None ->
  match_at (62 :: assemble_rewritten gs tail) = None.
Proof.
  destruct gs as [|g gs]; [trivial|].
  destruct (assemble_head_gt g gs tail) as [r1 ->].
  destruct (assemble_rewritten_head_gt g gs tail) as [r2 ->].
  apply match_at_context.
Qed.

Lemma re_sub_rewritten gs : forall tail,
  forallb well_formed gs = true -> leftmost gs tail = true ->
  separated gs tail = true ->
  re_sub (assemble_rewritten gs tail) = assemble_rewritten gs tail.
Proof.
  induction gs as [|g gs IH]; intros tail Hw Hl Hs.
  - now apply re_sub_no_match.
  - cbn [forallb leftmost separated] in *.
    apply andb_prop in Hw as [Hg Hw], Hl as [Hb Hl].
    destruct (match_at (62 :: assemble gs tail)) eqn:Hm; [discriminate|].
    apply match_after_rewritten in Hm.
    destruct (assemble_head_gt g gs tail) as [r1 E1].
    destruct (assemble_rewritten_head_gt g gs tail) as [r2 E2].
    rewrite E1 in Hb. apply (no_match_before_context _ _ r2) in Hb.
    rewrite <- E2 in Hb. cbn [assemble_rewritten] in Hb |- *.
    rewrite (re_sub_skip _ _ Hb). f_equal.
    destruct (rewritten_shape g Hg) as (y & Hy & Ey).
    assert (Hskip : no_match_before (length (rewritten g))
                      (rewritten g ++ assemble_rewritten gs tail) = true).
    { pose proof (rewritten_no_match g (assemble_rewritten gs tail) Hg) as H0.
      rewrite Ey in H0 |- *. cbn [app length no_match_before] in H0 |- *.
      rewrite H0.
      rewrite <- app_assoc. now apply no_match_through. }
    rewrite (re_sub_skip _ _ Hskip), (IH _ Hw Hl Hs). reflexivity.
Qed.

Lemma overlap_free_spec pre : forall n s d t rest,
  overlap_free_before n (pre ++ s) = true -> (length pre < n)%nat ->
  match_at s = Some (d, t, rest) -> match_at (62 :: rest) = None.
Proof.
  induction pre as [|c pre IH]; intros n s d t rest H L E.
  - destruct n as [|n]; [lia|]. destruct s as [|c s]; [discriminate|].
    cbn [app overlap_free_before] in H. rewrite E in H.
    now destruct (match_at (62 :: rest)).
  - destruct n as [|n]; [simpl in L; lia|]. cbn [app overlap_free_before] in H.
    apply (IH n s d t rest); [|simpl in L; lia|exact E].
    destruct (match_at (c :: pre ++ s)) as [[[? ?] r]|]; [|exact H].
    now destruct (match_at (62 :: r)).
Qed.

Lemma separated_of_overlap_free gs : forall tail pre n,
  forallb well_formed gs = true ->
  overlap_free_before n (pre ++ assemble gs tail) = true ->
  (length (pre ++ assemble gs tail) <= n)%nat ->
  separated gs tail = true.
Proof.
  induction gs as [|g gs IH]; intros tail pre n Hw H L; [reflexivity|].
  cbn [forallb assemble separated] in *. apply andb_prop in Hw as [Hg Hw].
  rewrite (overlap_free_spec (pre ++ before g) n
             (occurrence g ++ assemble gs tail) (date g) (time g)
             (assemble gs tail)).
  - apply (IH tail (pre ++ before g ++ occurrence g) n Hw);
      now rewrite <- !app_assoc.
  - now rewrite <- app_assoc.
  - assert (1 <= length (occurrence g))%nat
      by (rewrite <- (app_nil_r (occurrence g)), occurrence_app;
          cbn [length]; lia).
    rewrite length_app. repeat rewrite length_app in L. lia.
  - now apply match_at_occurrence.
Qed.

Lemma overlap_found n : forall s,
  overlap_free_before n s = false ->
  exists pre s' d t rest,
    s = pre ++ s' /\ match_at s' = Some (d, t, rest)
    /\ match_at (62 :: rest) <> None.
Proof.
  induction n as [|n IH]; intros s; [discriminate|].
  destruct s as [|c s]; [discriminate|]. cbn [overlap_free_before].
  destruct (match_at (c :: s)) as [[[d t] rest]|] eqn:E.
  - destruct (match_at (62 :: rest)) eqn:E'.
    + intros _. exists [], (c :: s), d, t, rest. rewrite E'. repeat split; auto.
    + intros H. destruct (IH _ H) as (pre & s' & d' & t' & rest' & -> & Hm & Hn).
      exists (c :: pre), s', d', t', rest'. auto.
  - intros H. destruct (IH _ H) as (pre & s' & d' & t' & rest' & -> & Hm & Hn).
    exists (c :: pre), s', d', t', rest'. auto.
Qed.

Lemma overlap_free_iff s : overlap_free s = true <-> no_adjacent_occurrence s.
Proof.
  split.
  - intros H pre g rest g' rest' Hg Hg' -> E.
    assert (Hm : match_at (62 :: rest) = None).
    { apply (overlap_free_spec pre (length (pre ++ occurrence g ++ rest))
               (occurrence g ++ rest) (date g) (time g) rest H).
      - rewrite length_app, occurrence_app. cbn [length]. lia.
      - now apply match_at_occurrence. }
    change (lit ">" ++ rest) with (62 :: rest) in E.
    now rewrite E, (match_at_occurrence g' rest' Hg') in Hm.
  - intros H. destruct (overlap_free s) eqn:E; [reflexivity|]. exfalso.
    apply overlap_found in E as (pre & s' & d & t & rest & -> & Hm & Hn).
    apply match_at_iff in Hm as (g & Hg & _ & _ & ->).
    destruct (match_at (62 :: rest)) as [[[d' t'] rest']|] eqn:Hm'; [|now apply Hn].
    apply match_at_iff in Hm' as (g' & Hg' & _ & _ & Hm').
    exact (H pre g rest g' rest' Hg Hg' eq_refl Hm').
Qed.

Lemma re_sub_idempotent s :
  overlap_free s = true -> re_sub (re_sub s) = re_sub s.
Proof.
  intros H. destruct (scan_cut_bounded (length s) s (le_n _))
    as (gs & tail & -> & Hw & Hl).
  rewrite (re_sub_assemble _ _ Hw Hl). apply re_sub_rewritten; try assumption.
  apply (separated_of_overlap_free gs tail [] _ Hw H). reflexivity.
Qed.

Lemma fix_creation_date_twice method path response s :
  to_str (_content response) = Some s -> overlap_free s = true ->
  fix_creation_date method path (fix_creation_date method path response)
  = fix_creation_date method path response.
Proof.
  intros Hs H. rewrite (fix_creation_date_decoded _ _ _ _ Hs).
  rewrite (fix_creation_date_decoded _ _ (Build_Response (Str (re_sub s)) _)
             (re_sub s) eq_refl).
  rewrite (re_sub_idempotent _ H). cbn [headers]. f_equal.
  apply insert_insert_eq.
Qed.

(** Property X3.  Passing a response through the listener a second time
    changes nothing, content and headers, provided that in the decoded text
    no occurrence of the pattern is followed at once by text that, read
    from the [>] closing the occurrence, is an occurrence again: a rewritten
    field is not matched again. *)
Theorem return_response_idempotent method path response :
  (forall s, to_str (_content response) = Some s -> no_adjacent_occurrence s) ->
  return_response method path (return_response method path response)
  = return_response method path response.
Proof.
  intros H.
  assert (E : return_response method path response = response
              \/ exists s, to_str (_content response) = Some s
                    /\ return_response method path response
                       = fix_creation_date method path response).
  { unfold return_response. destruct (truthy (_content response)); [|now left].
    destruct (to_str (_content response)) as [s|] eqn:Hs; [right; eauto|].
    left. unfold fix_creation_date. now rewrite Hs. }
  destruct E as [E|(s & Hs & E)]; [now rewrite !E|].
  rewrite E. unfold return_response at 1.
  rewrite (fix_creation_date_twice _ _ _ _ Hs (proj2 (overlap_free_iff s) (H s Hs))).
  now destruct (truthy _).
Qed.

Lemma return_response_idempotent_witness :
  return_response "GET" "/" (return_response "GET" "/" example_response)
  = return_response "GET" "/" example_response.
Proof.
  refine (return_response_idempotent "GET" "/" example_response _).
  intros s Hs. apply overlap_free_iff.
  assert (E : to_str (_content example_response)
              = Some (assemble example_segments (lit "<b/>")))
    by (vm_compute; reflexivity).
  rewrite E in Hs. injection Hs as <-. vm_compute. reflexivity.
Defined.

(** Two fields back to back: the second is not matched in the first pass,
    as the [>] in front of it belongs to the first match, and is matched in
    a second pass. *)
Example adjacent_fields_need_two_passes :
  re_sub (lit ">1 2</creationTimestamp>3 4</creationTimestamp>")
  = lit ">1T2Z</creationTimestamp>3 4</creationTimestamp>"
  /\ re_sub (re_sub (lit ">1 2</creationTimestamp>3 4</creationTimestamp>"))
     = lit ">1T2Z</creationTimestamp>3T4Z</creationTimestamp>".
Proof. split; vm_compute; reflexivity. Qed.



(** The example of section 8, run. *)
Example fix_creation_date_example :
  _content (fix_creation_date "GET" "/" example_response) = Str example_rewritten
  /\ Forall (fun g => is_date (date g) /\ is_time (time g)) example_segments.
Proof.
  split; [vm_compute; reflexivity|].
  repeat constructor; vm_compute; reflexivity.
Qed.

(** Claim C2, at a payload with one character of two octets.  The header
    is set to the number of code points of the text ("1"), while the text is
    two octets long on the wire. *)
Theorem content_length_counts_code_points :
  headers (fix_creation_date "GET" "/" accented_response) !! "Content-Length"
  = Some "1"
  /\ _content (fix_creation_date "GET" "/" accented_response) = Str [233]
  /\ wire_bytes (_content (fix_creation_date "GET" "/" accented_response))
     = Some [195; 169].
Proof.
  split; [|split].
  - now rewrite (content_length_header _ _ accented_response [233] eq_refl).
  - reflexivity.
  - reflexivity.
Qed.

(** Claim C3.  When the decoded text holds no occurrence of the pattern, the
    listener leaves the text as it is, and the octets the response stands
    for are those it came with. *)
Theorem fix_creation_date_preserves_unmatched
    method path response (s : list Z) :
  to_str (_content response) = Some s ->
  (forall pre g rest, well_formed g = true -> s <> pre ++ occurrence g ++ rest) ->
  _content (fix_creation_date method path response) = Str s
  /\ wire_bytes (_content (fix_creation_date method path response))
     = wire_bytes (_content response).
Proof.
  intros Hs Hno. apply no_match_in_iff, re_sub_no_match in Hno.
  rewrite (fix_creation_date_decoded _ _ _ _ Hs), Hno. cbn [_content].
  split; [reflexivity|].
  destruct (_content response) as [b|s0]; cbn [to_str wire_bytes] in *.
  - now apply utf8_roundtrip.
  - now injection Hs as ->.
Qed.

Lemma fix_creation_date_preserves_unmatched_witness :
  wire_bytes (_content (fix_creation_date "GET" "/" plain_response))
  = wire_bytes (_content plain_response).
Proof.
  refine (proj2 (fix_creation_date_preserves_unmatched
                   "GET" "/" plain_response _ eq_refl _)).
  apply no_match_in_iff. vm_compute. reflexivity.
Defined.

End Ec2Listener.

Module AsyncUtils.

Local Open Scope nat_scope.

(** *** Exceptions and results *)

Inductive exn :=
| Empty                      (* queue.Empty: a [get] that timed out *)
| QueueFault (what : string) (* any other [Exception] a queue raises *)
| Interrupt (what : string)  (* a [BaseException] outside [Exception] *)
| KeyError (key : string)
| AttributeError.

(** [except Exception] catches everything but the exceptions that derive
    from [BaseException] alone. *)
Definition is_Exception (e : exn) : bool :=
  match e with
  | Interrupt _ => false
  | _ => true
  end.

Inductive outcome (A : Type) :=
| Returns (a : A)
| Raises (e : exn).

Arguments Returns {A} a.
Arguments Raises {A} e.

(** *** AdaptiveThreadPool *)

Definition task := nat.

(** The executor's state as [submit] and [has_idle_threads] read it.
    [_idle_semaphore] is [None] where [ThreadPoolExecutor] has no such
    attribute (before Python 3.8); where it has one, it counts the workers
    that finished an item and wait for the next. *)
Record AdaptiveThreadPool := {
  core_size : nat;
  _max_workers : nat;
  _threads : list nat;
  _idle_semaphore : option nat;
  _work_queue : list task
}.

Definition DEFAULT_CORE_POOL_SIZE : nat := 30.

(** [__init__]: [core_size or DEFAULT_CORE_POOL_SIZE], then the executor's
    own constructor, which starts no thread and, where it has the
    semaphore, creates it with the value 0. *)
Definition init (core : option nat) (with_semaphore : bool)
  : AdaptiveThreadPool :=
  let size := match core with
              | Some (S n) => S n
              | _ => DEFAULT_CORE_POOL_SIZE
              end in
  {| core_size := size;
     _max_workers := size;
     _threads := [];
     _idle_semaphore := if with_semaphore then Some 0 else None;
     _work_queue := [] |}.

(** [Semaphore.acquire(timeout=0)]: take one unit if there is one, without
    waiting. *)
Definition acquire_now (p : AdaptiveThreadPool) (k : nat)
  : bool * AdaptiveThreadPool :=
  match k with
  | S k' => (true, {| core_size := core_size p; _max_workers := _max_workers p;
                      _threads := _threads p; _idle_semaphore := Some k';
                      _work_queue := _work_queue p |})
  | O => (false, p)
  end.

Definition has_idle_threads (p : AdaptiveThreadPool)
  : bool * AdaptiveThreadPool :=
  match _idle_semaphore p with
  | Some k => acquire_now p k
  | None => (length (_threads p) <? _max_workers p, p)
  end.

Inductive future :=
| ExecutorFuture (work : task)   (* the future of a queued work item *)
| ResultFuture (thread : nat).   (* [thread.result_future] of a new thread *)

(** The pool and the one-shot threads started beside it, each with the task
    it runs. *)
Record PoolWorld := {
  pool : AdaptiveThreadPool;
  transient : list task
}.

Definition add_worker (p : AdaptiveThreadPool) : AdaptiveThreadPool :=
  if length (_threads p) <? _max_workers p then
    {| core_size := core_size p; _max_workers := _max_workers p;
       _threads := _threads p ++ [length (_threads p)];
       _idle_semaphore := _idle_semaphore p;
       _work_queue := _work_queue p |}
  else p.

(** [ThreadPoolExecutor.submit]: queue the item, then
    [_adjust_thread_count], which starts no worker when an idle one can be
    claimed or [_max_workers] are alive. *)
Definition executor_submit (p : AdaptiveThreadPool) (fn : task)
  : future * AdaptiveThreadPool :=
  let queued := {| core_size := core_size p; _max_workers := _max_workers p;
                   _threads := _threads p;
                   _idle_semaphore := _idle_semaphore p;
                   _work_queue := _work_queue p ++ [fn] |} in
  let adjusted := match _idle_semaphore queued with
                  | Some (S k) => snd (acquire_now queued (S k))
                  | _ => add_worker queued
                  end in
  (ExecutorFuture fn, adjusted).

(** Modelled from the spec: [start_worker_thread] of
    [localstack.utils.common]; section 4.1: "a brand-new transient, one-shot
    thread is created solely to run this task; its completion resolves a
    dedicated future". *)
Definition start_worker_thread (w : PoolWorld) (fn : task)
  : nat * PoolWorld :=
  (length (transient w),
   {| pool := pool w; transient := transient w ++ [fn] |}).

Definition submit (w : PoolWorld) (fn : task) : future * PoolWorld :=
  let '(idle, p) := has_idle_threads (pool w) in
  if idle then
    let '(f, p') := executor_submit p fn in
    (f, {| pool := p'; transient := transient w |})
  else
    let '(thread, w') :=
      start_worker_thread {| pool := p; transient := transient w |} fn in
    (ResultFuture thread, w').

(** A persistent worker finishes the item at the head of the queue and
    releases the semaphore; there must be a worker and an item. *)
Definition worker_completes (w : PoolWorld) : option PoolWorld :=
  match _threads (pool w), _work_queue (pool w) with
  | _ :: _, _ :: queue' =>
    Some {| pool := {| core_size := core_size (pool w);
                       _max_workers := _max_workers (pool w);
                       _threads := _threads (pool w);
                       _idle_semaphore := S <$> _idle_semaphore (pool w);
                       _work_queue := queue' |};
            transient := transient w |}
  | _, _ => None
  end.

(** What the rest of the program does to a pool: submit a task, or let a
    worker finish one. *)
Inductive pool_event :=
| Submit (fn : task)
| WorkerDone.

Definition pool_step (w : PoolWorld) (e : pool_event)
  : option future * PoolWorld :=
  match e with
  | Submit fn => let '(f, w') := submit w fn in (Some f, w')
  | WorkerDone => (None, default w (worker_completes w))
  end.

(** The futures handed out along a run, and the world it ends in. *)
Fixpoint pool_run (w : PoolWorld) (es : list pool_event)
  : list future * PoolWorld :=
  match es with
  | [] => ([], w)
  | e :: es' =>
    let '(f, w') := pool_step w e in
    let '(fs, w'') := pool_run w' es' in
    (option_list f ++ fs, w'')
  end.

Definition is_transient (f : future) : bool :=
  match f with
  | ResultFuture _ => true
  | ExecutorFuture _ => false
  end.

(** A pool as the module creates it ([THREAD_POOL]), on an interpreter
    whose executor has the semaphore. *)
Definition fresh (core : option nat) : PoolWorld :=
  {| pool := init core true; transient := [] |}.

(** *** receive_from_queue *)

(** An item of the queue.  The call returns the item as it is, so that
    [Some x] below stands for an item other than Python's [None]; queues
    that hand over [None] as an item are left out. *)
Definition item := nat.

(** An object with a [get(timeout=...)] method.  [wait] is what the rest of
    the program does to the queue while one attempt waits (up to a second)
    for an item. *)
Class BlockingQueue (Q : Type) := {
  wait : Type;
  queue_get : Q -> wait -> outcome item * Q
}.

(** [queue.Queue]: an item that is there is handed over at once; on an
    empty queue the attempt ends with the item a producer puts within the
    second, or with [queue.Empty]. *)
Inductive producer :=
| Idle
| Puts (x : item).

Definition fifo_get (q : list item) (p : producer) : outcome item * list item :=
  match q with
  | x :: q' => (Returns x, q')
  | [] =>
    match p with
    | Puts x => (Returns x, [])
    | Idle => (Raises Empty, [])
    end
  end.

#[export] Instance fifo_queue : BlockingQueue (list item) :=
  {| wait := producer; queue_get := fifo_get |}.

(** A queue in front of a backing store that may fail: its answers to the
    successive [get] calls are listed; past the list it times out. *)
Definition scripted_get (q : list (outcome item)) (_ : unit)
  : outcome item * list (outcome item) :=
  match q with
  | o :: q' => (o, q')
  | [] => (Raises Empty, [])
  end.

#[export] Instance scripted_queue : BlockingQueue (list (outcome item)) :=
  {| wait := unit; queue_get := scripted_get |}.

(** Where the retry loop stands when the listed rounds are used up.  For
    the caller of [receive_from_queue] there is a third case: the function
    handed to [run_sync] raised on the thread that ran it. *)
Inductive progress :=
| Finished (o : outcome (option item))
| Retrying
| RaisedOnWorker (e : exn).

(** The inner function [get].  A round is the value of
    [common.INFRA_STOPPED] read at its start and what happens during its
    attempt; the result comes with the queue afterwards and the number of
    [queue.get] calls made. *)
Fixpoint get {Q} `{BlockingQueue Q} (queue : Q) (rounds : list (bool * wait))
  : progress * Q * nat :=
  match rounds with
  | [] => (Retrying, queue, 0)
  | (INFRA_STOPPED, w) :: rounds' =>
    if INFRA_STOPPED then (Finished (Returns None), queue, 0)
    else
      match queue_get queue w with
      | (Returns x, queue') => (Finished (Returns (Some x)), queue', 1)
      | (Raises e, queue') =>
        if is_Exception e then
          let '(r, queue'', n) := get queue' rounds' in (r, queue'', S n)
        else (Finished (Raises e), queue', 1)
      end
  end.

(** [run_sync]: [loop.run_in_executor] hands the function to [submit] of
    the pool, and the awaiting task resumes from the future that [submit]
    returns.  What the function returned is what the task resumes with.
    What the function raised, it raised on the thread of the pool that ran
    it, a one-shot thread of [start_worker_thread] wherever the executor has
    the semaphore.  The future of such a thread is resolved by code that is
    not part of the module, so the result only records the exception that
    was raised there, and nothing is said of what the awaiting task then
    resumes with. *)
Definition run_sync {Q} (result : progress * Q * nat) : progress * Q * nat :=
  match result with
  | (Finished (Raises e), queue, n) => (RaisedOnWorker e, queue, n)
  | _ => result
  end.

Definition receive_from_queue {Q} `{BlockingQueue Q}
    (queue : Q) (rounds : list (bool * wait)) : progress * Q * nat :=
  let msg := run_sync (get queue rounds) in
  msg.

(** Rounds on which the flag is clear and nothing arrives. *)
Definition quiet (n : nat) : list (bool * producer) := replicate n (false, Idle).

(** *** AsyncThread *)

(** What a coroutine returned by an initializer does: wait for the shutdown
    event, or finish without waiting. *)
Inductive coroutine :=
| UntilShutdown
| AtOnce.

(** The functions passed as [async_func_gen]: the closure of
    [get_named_event_loop], or a caller's function, of which only the
    coroutine it returns (if any) matters here. *)
Inductive generator :=
| RegisterLoop (name : string)
| Caller (c : option coroutine).

(** Where the thread is in [run_func]. *)
Inductive phase :=
| Started                      (* [start()] done, [run_func] not yet entered *)
| Completing (loop event : nat) (* in [loop.run_until_complete(async_func)] *)
| Serving (loop : nat)         (* in [loop.run_forever()] *)
| Terminated.                  (* [run_func] has returned *)

Record AsyncThread := {
  async_func_gen : option generator;
  loop : option nat;
  shutdown_event : option nat;
  at_phase : phase
}.

(** An event loop: the flag [loop.stop()] sets, and the callbacks it has
    run. *)
Record Loop := {
  stopping : bool;
  ran : list nat
}.

(** The module-level state and the objects it refers to: the registry
    [EVENT_LOOPS], the threads made by [run_async] in the order of
    [TMP_THREADS], the [asyncio.Event] objects (their flags) and the event
    loops, each kind addressed by its position, and the time in seconds.
    [missed] lists the callers of [get_named_event_loop] that have found no
    entry and have not called [run_async] yet, each by the name it asked
    for: nothing keeps other threads from running between the two
    statements. *)
Record World := {
  EVENT_LOOPS : gmap string nat;
  TMP_THREADS : list AsyncThread;
  events : list bool;
  loops : list Loop;
  clock : nat;
  missed : list string
}.

Definition empty_world : World :=
  {| EVENT_LOOPS := ∅; TMP_THREADS := []; events := []; loops := []; clock := 0;
     missed := [] |}.

Definition set_phase (t : AsyncThread) (p : phase) : AsyncThread :=
  {| async_func_gen := async_func_gen t; loop := loop t;
     shutdown_event := shutdown_event t; at_phase := p |}.

Definition set_shutdown_event (t : AsyncThread) (e : option nat) : AsyncThread :=
  {| async_func_gen := async_func_gen t; loop := loop t;
     shutdown_event := e; at_phase := at_phase t |}.

Definition set_threads (w : World) (ts : list AsyncThread) : World :=
  {| EVENT_LOOPS := EVENT_LOOPS w; TMP_THREADS := ts; events := events w;
     loops := loops w; clock := clock w; missed := missed w |}.

Definition set_missed (w : World) (callers : list string) : World :=
  {| EVENT_LOOPS := EVENT_LOOPS w; TMP_THREADS := TMP_THREADS w;
     events := events w; loops := loops w; clock := clock w;
     missed := callers |}.

(** [AsyncThread(func, loop=loop)]. *)
Definition new_thread (func : option generator) (l : option nat) : AsyncThread :=
  {| async_func_gen := func; loop := l; shutdown_event := None;
     at_phase := Started |}.

(** [run_async]: make the thread, start it, append it to [TMP_THREADS].  The
    thread's number is returned; [run_func] runs when the thread is
    scheduled ([run_func_enter]). *)
Definition run_async (func : option generator) (l : option nat) (w : World)
  : nat * World :=
  (length (TMP_THREADS w), set_threads w (TMP_THREADS w ++ [new_thread func l])).

(** [ensure_event_loop] in a thread whose current loop is [current]: a
    thread that has just been started has none, [asyncio.get_event_loop()]
    raises there and a new loop is made. *)
Definition ensure_event_loop (current : option nat) (ls : list Loop)
  : nat * list Loop :=
  match current with
  | Some l => (l, ls)
  | None => (length ls, ls ++ [{| stopping := false; ran := [] |}])
  end.

(** [run_func] up to the call of [loop.run_forever()]: choose the loop, make
    the shutdown event, call the initializer and enter
    [run_until_complete] when it returned a coroutine. *)
Definition run_func_enter (tid : nat) (w : World) : World :=
  match TMP_THREADS w !! tid with
  | Some t =>
    match at_phase t with
    | Started =>
      let '(l, ls) := match loop t with
                      | Some l => (l, loops w)
                      | None => ensure_event_loop None (loops w)
                      end in
      let ev := length (events w) in
      let registry := match async_func_gen t with
                      | Some (RegisterLoop name) => <[name := l]> (EVENT_LOOPS w)
                      | _ => EVENT_LOOPS w
                      end in
      let async_func := match async_func_gen t with
                        | Some (Caller c) => c
                        | _ => None
                        end in
      let ph := match async_func with
                | Some UntilShutdown => Completing l ev
                | Some AtOnce | None => Serving l
                end in
      {| EVENT_LOOPS := registry;
         TMP_THREADS :=
           <[tid := set_phase (set_shutdown_event t (Some ev)) ph]> (TMP_THREADS w);
         events := events w ++ [false];
         loops := ls;
         clock := clock w;
         missed := missed w |}
    | _ => w
    end
  | None => w
  end.

(** The coroutine that waits for the shutdown event is resumed: when the
    event is set it finishes, [run_until_complete] returns and [run_func]
    goes on to [loop.run_forever()]. *)
Definition resume (tid : nat) (w : World) : World :=
  match TMP_THREADS w !! tid with
  | Some t =>
    match at_phase t with
    | Completing l ev =>
      match events w !! ev with
      | Some true => set_threads w (<[tid := set_phase t (Serving l)]> (TMP_THREADS w))
      | _ => w
      end
    | _ => w
    end
  | None => w
  end.

(** Work scheduled on a loop: a callback, a callback that calls
    [loop.stop()], or a callback that raises [SystemExit] or
    [KeyboardInterrupt], the two exceptions that the loop does not hand to
    its exception handler but lets through. *)
Inductive work :=
| Callback (id : nat)
| CallsLoopStop
| RaisesExit.

Definition run_work (l : Loop) (k : work) : Loop :=
  match k with
  | Callback id => {| stopping := stopping l; ran := ran l ++ [id] |}
  | CallsLoopStop => {| stopping := true; ran := ran l |}
  | RaisesExit => l
  end.

(** The callbacks that are ready run in order, up to the first that raises
    [SystemExit] or [KeyboardInterrupt]; the flag tells whether one did. *)
Fixpoint run_ready (l : Loop) (ready : list work) : Loop * bool :=
  match ready with
  | [] => (l, false)
  | RaisesExit :: _ => (l, true)
  | k :: ready' => run_ready (run_work l k) ready'
  end.

(** One turn of [loop.run_forever()]: run the callbacks that are ready, then
    leave the loop if [stop()] was called on it, in which case [run_func]
    returns.  An exception that the loop lets through leaves
    [run_forever] and [run_func] at once.  Either way the loop clears its
    stopping flag on the way out. *)
Definition serve_round (tid : nat) (ready : list work) (w : World) : World :=
  match TMP_THREADS w !! tid with
  | Some t =>
    match at_phase t with
    | Serving l =>
      match loops w !! l with
      | Some lp =>
        let '(lp', raised) := run_ready lp ready in
        if raised || stopping lp' then
          {| EVENT_LOOPS := EVENT_LOOPS w;
             TMP_THREADS := <[tid := set_phase t Terminated]> (TMP_THREADS w);
             events := events w;
             loops := <[l := {| stopping := false; ran := ran lp' |}]> (loops w);
             clock := clock w;
             missed := missed w |}
        else
          {| EVENT_LOOPS := EVENT_LOOPS w; TMP_THREADS := TMP_THREADS w;
             events := events w; loops := <[l := lp']> (loops w);
             clock := clock w;
             missed := missed w |}
      | None => w
      end
    | _ => w
    end
  | None => w
  end.

Definition serve (tid : nat) (rounds : list (list work)) (w : World) : World :=
  foldl (fun w ready => serve_round tid ready w) w rounds.

(** [event.set()] on what [self.shutdown_event] holds; on [None] the
    attribute lookup fails. *)
Definition event_set (e : option nat) (es : list bool) : outcome (list bool) :=
  match e with
  | Some ev => Returns (<[ev := true]> es)
  | None => Raises AttributeError
  end.

(** [stop], on the thread object and the events. *)
Definition stop (t : AsyncThread) (es : list bool)
  : outcome (AsyncThread * list bool) :=
  match shutdown_event t with
  | Some _ =>
    match event_set (shutdown_event t) es with
    | Returns es' => Returns (set_shutdown_event t None, es')
    | Raises e => Raises e
    end
  | None => Returns (t, es)
  end.

(** [TMP_THREADS[tid].stop()] in a world; a fault would leave the world as
    it is. *)
Definition stop_thread (tid : nat) (w : World) : World :=
  match TMP_THREADS w !! tid with
  | Some t =>
    match stop t (events w) with
    | Returns (t', es') =>
      {| EVENT_LOOPS := EVENT_LOOPS w;
         TMP_THREADS := <[tid := t']> (TMP_THREADS w);
         events := es'; loops := loops w; clock := clock w;
         missed := missed w |}
    | Raises _ => w
    end
  | None => w
  end.

Definition phase_of (tid : nat) (w : World) : option phase :=
  at_phase <$> TMP_THREADS w !! tid.

Definition work_done (l : nat) (w : World) : list nat :=
  default [] (ran <$> loops w !! l).

Definition callbacks (ready : list work) : list nat :=
  omap (fun k => match k with Callback id => Some id | _ => None end) ready.

(** Work that ends the serve loop: a call of [loop.stop()], or an exception
    that the loop lets through. *)
Definition ends_loop (k : work) : bool :=
  match k with
  | Callback _ => false
  | CallsLoopStop | RaisesExit => true
  end.

(** Nothing that is ready in these turns ends the loop. *)
Definition only_callbacks (rounds : list (list work)) : bool :=
  negb (existsb (existsb ends_loop) rounds).

(** *** get_named_event_loop *)

(** What other threads do while a caller sleeps: a started thread is
    scheduled and runs [run_func] up to its serve loop; another caller goes
    through the lookup and, on a miss, through [run_async] without another
    thread running in between; or another caller does the lookup only and
    is then suspended, and a caller that was suspended after a miss goes on
    to [run_async]. *)
Inductive activity :=
| Runs (tid : nat)
| Enters (name : string)
| Misses (name : string)
| Starts (name : string).

(** The lookup and [run_async] of a caller that no other thread
    interrupts in between. *)
Definition lookup_or_spawn (name : string) (w : World) : option nat * World :=
  match EVENT_LOOPS w !! name with
  | Some l => (Some l, w)
  | None => (None, snd (run_async (Some (RegisterLoop name)) None w))
  end.

(** The lookup of a caller that is suspended right after it: on a hit the
    call returns, on a miss the caller is on its way to [run_async]. *)
Definition lookup_only (name : string) (w : World) : World :=
  match EVENT_LOOPS w !! name with
  | Some _ => w
  | None => set_missed w (missed w ++ [name])
  end.

(** One caller for [name] is taken from those on their way, if there is
    one. *)
Fixpoint take_out (name : string) (callers : list string)
  : option (list string) :=
  match callers with
  | [] => None
  | n :: callers' =>
    if bool_decide (n = name) then Some callers'
    else cons n <$> take_out name callers'
  end.

(** A caller that missed [name] goes on: it calls [run_async] whatever the
    registry holds by now. *)
Definition spawn_after_miss (name : string) (w : World) : World :=
  match take_out name (missed w) with
  | Some callers =>
    snd (run_async (Some (RegisterLoop name)) None (set_missed w callers))
  | None => w
  end.

Definition act (w : World) (a : activity) : World :=
  match a with
  | Runs tid => run_func_enter tid w
  | Enters name => snd (lookup_or_spawn name w)
  | Misses name => lookup_only name w
  | Starts name => spawn_after_miss name w
  end.

(** [time.sleep(seconds)] with the given activity of the other threads. *)
Definition sleep (seconds : nat) (during : list activity) (w : World) : World :=
  let w' := foldl act w during in
  {| EVENT_LOOPS := EVENT_LOOPS w'; TMP_THREADS := TMP_THREADS w';
     events := events w'; loops := loops w'; clock := clock w' + seconds;
     missed := missed w' |}.

(** [EVENT_LOOPS[name]]. *)
Definition subscript (name : string) (w : World) : outcome nat :=
  match EVENT_LOOPS w !! name with
  | Some l => Returns l
  | None => Raises (KeyError name)
  end.

(** The call of a caller that no other thread interrupts between the lookup
    and [run_async]; [during] is what the other threads do while it
    sleeps.  A call that is interrupted there is the steps [Miss] and
    [Start] below, with [subscript] at the end of its sleep. *)
Definition get_named_event_loop (name : string) (during : list activity)
    (w : World) : outcome nat * World :=
  match EVENT_LOOPS w !! name with
  | Some result => (Returns result, w)
  | None =>
    let '(_, w1) := run_async (Some (RegisterLoop name)) None w in
    let w2 := sleep 1 during w1 in
    (subscript name w2, w2)
  end.

(** The threads that would still write an entry under [name]: started by
    [get_named_event_loop name], not yet scheduled. *)
Definition pending (name : string) (t : AsyncThread) : bool :=
  match at_phase t, async_func_gen t with
  | Started, Some (RegisterLoop n) => bool_decide (n = name)
  | _, _ => false
  end.

Definition settled (name : string) (w : World) : bool :=
  forallb (fun t => negb (pending name t)) (TMP_THREADS w).

(** *** Runs of the module *)

(** What the threads of the program may do, one step at a time: a started
    thread enters [run_func], a waiting coroutine is resumed, a serve loop
    takes a turn, somebody calls [stop()], a caller goes through
    [get_named_event_loop] or through its first half only, a caller does
    the lookup and is suspended, a suspended caller goes on to [run_async],
    time passes. *)
Inductive op :=
| Schedule (tid : nat)
| Resume (tid : nat)
| Turn (tid : nat) (ready : list work)
| Stop (tid : nat)
| Call (name : string) (during : list activity)
| Enter (name : string)
| Elapse (seconds : nat)
| Miss (name : string)
| Start (name : string).

Definition apply_op (w : World) (o : op) : World :=
  match o with
  | Schedule tid => run_func_enter tid w
  | Resume tid => resume tid w
  | Turn tid ready => serve_round tid ready w
  | Stop tid => stop_thread tid w
  | Call name during => snd (get_named_event_loop name during w)
  | Enter name => snd (lookup_or_spawn name w)
  | Elapse seconds => sleep seconds [] w
  | Miss name => lookup_only name w
  | Start name => spawn_after_miss name w
  end.

Definition run (ops : list op) (w : World) : World := foldl apply_op w ops.

(** The event is set. *)
Definition is_set (ev : nat) (w : World) : Prop := events w !! ev = Some true.

(** *** Vocabulary of the statements *)

(** No persistent worker, nothing to claim on the semaphore, nothing
    queued: the state of a pool that has just been made. *)
Definition unused (w : PoolWorld) : Prop :=
  _threads (pool w) = [] /\ _idle_semaphore (pool w) = Some 0
  /\ _work_queue (pool w) = [].

(** No thread other than [keep] is about to write an entry under [name]. *)
Definition only_pending (name : string) (keep : option nat) (w : World) : Prop :=
  forall i t, TMP_THREADS w !! i = Some t -> pending name t = true -> keep = Some i.

(** Activity that keeps away from [name]: the thread [keep] is not
    scheduled and no other caller asks for [name]. *)
Definition quiet_for (name : string) (keep : option nat) (a : activity) : bool :=
  match a with
  | Runs tid => negb (bool_decide (keep = Some tid))
  | Enters n | Misses n | Starts n => negb (bool_decide (n = name))
  end.

(** No caller that found no entry under [name] is still on its way to
    [run_async]. *)
Definition none_on_the_way (name : string) (w : World) : bool :=
  forallb (fun n => negb (bool_decide (n = name))) (missed w).

(** [name] has the handle [l], every thread started for it has written
    its entry and no caller is on its way to starting another. *)
Definition registered (name : string) (l : nat) (w : World) : Prop :=
  EVENT_LOOPS w !! name = Some l /\ only_pending name None w
  /\ none_on_the_way name w = true.

(** One thread without initializer, in its serve loop. *)
Definition serving_world : World :=
  run_func_enter 0 (snd (run_async None None empty_world)).

(** One thread whose coroutine waits for the shutdown event. *)
Definition waiting_world : World :=
  run_func_enter 0
    (snd (run_async (Some (Caller (Some UntilShutdown))) None empty_world)).

(** ["a"] was asked for once and its thread wrote the entry during the
    sleep. *)
Definition settled_world : World :=
  snd (get_named_event_loop "a" [Runs 0] empty_world).

(** ["a"] was asked for once and its thread was not scheduled during the
    sleep. *)
Definition missed_once : World := run [Call "a" []] empty_world.

(** A caller found no entry under ["a"] and was suspended before
    [run_async]; then ["a"] was asked for again, and the thread of that call
    wrote its entry during the sleep. *)
Definition suspended_caller : World :=
  run [Miss "a"; Call "a" [Runs 0]] empty_world.

(** ["a"] was asked for twice, at 0s and 1s, and neither thread was
    scheduled during the sleeps; the first thread runs at 2s; a second
    passes; the second thread runs at 3s. *)
Definition missed_twice : World := run [Call "a" []; Call "a" []] empty_world.
Definition first_recorded : World := run [Schedule 0] missed_twice.
Definition interval_over : World := run [Elapse 1] first_recorded.
Definition second_recorded : World := run [Schedule 1] interval_over.

(** *** Vocabulary of the further properties *)

(** The number of [submit] calls among the events. *)
Fixpoint submitted (es : list pool_event) : nat :=
  match es with
  | Submit _ :: es' => S (submitted es')
  | WorkerDone :: es' => submitted es'
  | [] => 0
  end.

(** What [core_size or DEFAULT_CORE_POOL_SIZE] evaluates to. *)
Definition effective_core (core : option nat) : nat :=
  core_size (init core false).

(** A pool on an interpreter whose executor has no [_idle_semaphore]. *)
Definition legacy (core : option nat) : PoolWorld :=
  {| pool := init core false; transient := [] |}.

(** The room left in the core. *)
Definition spare (w : PoolWorld) : nat :=
  _max_workers (pool w) - length (_threads (pool w)).

(** What a program does with the module: [AsyncThread.run_async] with a
    function of its own (none, or one that returns a coroutine or nothing)
    and possibly a loop, or one of the steps of [op]. *)
Inductive action :=
| Spawn (func : option (option coroutine)) (l : option nat)
| Step (o : op).

Definition perform (w : World) (a : action) : World :=
  match a with
  | Spawn func l => snd (run_async (Caller <$> func) l w)
  | Step o => apply_op w o
  end.

(** The world after a program's actions, from the state of the module when
    it has been imported. *)
Definition history (acts : list action) : World := foldl perform empty_world acts.

(** A thread and its shutdown event: none before [run_func]; while
    [run_until_complete] waits for the event [ev], the thread still holds
    [ev] or [ev] is set. *)
Definition thread_ok (es : list bool) (t : AsyncThread) : Prop :=
  match at_phase t with
  | Started => shutdown_event t = None
  | Completing _ ev =>
    ev < length es /\ (shutdown_event t = Some ev \/ es !! ev = Some true)
  | _ => True
  end.

(** The closure of [get_named_event_loop] is passed to [run_async] without
    a loop. *)
Definition closure_ok (t : AsyncThread) : Prop :=
  forall name, async_func_gen t = Some (RegisterLoop name) -> loop t = None.

(** The handles of the registry are loops that exist, one per name. *)
Definition registry_ok (w : World) : Prop :=
  (forall name l, EVENT_LOOPS w !! name = Some l -> l < length (loops w))
  /\ (forall n1 n2 l, EVENT_LOOPS w !! n1 = Some l ->
                      EVENT_LOOPS w !! n2 = Some l -> n1 = n2).

Definition sound (w : World) : Prop :=
  Forall (thread_ok (events w)) (TMP_THREADS w)
  /\ Forall closure_ok (TMP_THREADS w)
  /\ registry_ok w.

(** The registry has an entry under [name]. *)
Definition has_entry (name : string) (w : World) : Prop :=
  is_Some (EVENT_LOOPS w !! name).

(** *** The pool *)

Lemma unused_fresh core : unused (fresh core).
Proof. repeat split. Qed.

Lemma submit_unused w fn :
  unused w ->
  submit w fn = (ResultFuture (length (transient w)),
                 {| pool := pool w; transient := transient w ++ [fn] |}).
Proof.
  intros (_ & Hs & _). unfold submit, has_idle_threads. rewrite Hs. reflexivity.
Qed.

Lemma worker_completes_unused w : unused w -> worker_completes w = None.
Proof. intros (Ht & _). unfold worker_completes. now rewrite Ht. Qed.

Lemma pool_step_unused w e :
  unused w ->
  unused (snd (pool_step w e))
  /\ forallb is_transient (option_list (fst (pool_step w e))) = true.
Proof.
  intros H. destruct e as [fn|]; cbn [pool_step].
  - rewrite (submit_unused _ _ H). split; [exact H|reflexivity].
  - rewrite (worker_completes_unused _ H). split; [exact H|reflexivity].
Qed.

Lemma pool_run_unused es : forall w,
  unused w ->
  forallb is_transient (fst (pool_run w es)) = true
  /\ unused (snd (pool_run w es)).
Proof.
  induction es as [|e es IH]; intros w H; [split; [reflexivity|exact H]|].
  cbn [pool_run]. destruct (pool_step_unused w e H) as [H1 H2].
  destruct (pool_step w e) as [f w']. cbn [fst snd] in *.
  destruct (IH w' H1) as [H3 H4]. destruct (pool_run w' es) as [fs w''].
  cbn [fst snd] in *. split; [|exact H4].
  now rewrite forallb_app, H2, H3.
Qed.

(** Property X5.  On an interpreter whose executor has the semaphore, a
    pool never hands a task to its core: the semaphore starts at 0 and only a worker that
    finished an item releases it, and workers are only started by the
    executor's own [submit], which is only reached once the semaphore could
    be claimed. *)
Theorem fresh_pool_never_uses_its_core core es :
  forallb is_transient (fst (pool_run (fresh core) es)) = true
  /\ _threads (pool (snd (pool_run (fresh core) es))) = [].
Proof.
  destruct (pool_run_unused es (fresh core) (unused_fresh core)) as [H1 (H2 & _)].
  auto.
Qed.

(** Claim C4, at a pool that has just been made with [core_size=2].  No
    persistent thread is alive, fewer than [core_size], and [submit] starts a
    one-shot thread and hands out its future; the same happens for a second
    task.  Without the semaphore (older interpreters) two tasks go to the
    core, and when one worker has finished and is idle the third task still
    goes to a one-shot thread. *)
Theorem submit_on_fresh_pool_starts_transient_thread :
  length (_threads (pool (fresh (Some 2)))) < core_size (pool (fresh (Some 2)))
  /\ submit (fresh (Some 2)) 7
     = (ResultFuture 0, {| pool := pool (fresh (Some 2)); transient := [7] |})
  /\ fst (pool_run (fresh (Some 2)) [Submit 7; Submit 8])
     = [ResultFuture 0; ResultFuture 1]
  /\ fst (pool_run {| pool := init (Some 2) false; transient := [] |}
                   [Submit 7; Submit 8; WorkerDone; Submit 9])
     = [ExecutorFuture 7; ExecutorFuture 8; ResultFuture 0].
Proof. repeat split; vm_compute; lia. Qed.

(** *** The retry loop *)

Section Retry.
Context {Q : Type} `{BlockingQueue Q}.

Lemma get_stopped (queue : Q) w rounds :
  get queue ((true, w) :: rounds) = (Finished (Returns None), queue, 0).
Proof. reflexivity. Qed.

Lemma get_app (before : list (bool * wait)) : forall (queue : Q) after queue' n,
  get queue before = (Retrying, queue', n) ->
  get queue (before ++ after)
  = let '(r, queue'', m) := get queue' after in (r, queue'', n + m).
Proof.
  induction before as [|[stopped w] before IH]; intros queue after queue' n.
  - intros [= <- <-]. cbn [app]. now destruct (get queue after) as [[r q] m].
  - cbn [app get]. destruct stopped; [discriminate|].
    destruct (queue_get queue w) as [[x|e] q1]; [discriminate|].
    destruct (is_Exception e); [|discriminate].
    destruct (get q1 before) as [[r q2] k] eqn:E. intros [= -> -> <-].
    rewrite (IH _ after _ _ E). now destruct (get queue' after) as [[r' q3] m].
Qed.

Lemma get_swallows (queue : Q) w rounds e queue' :
  queue_get queue w = (Raises e, queue') ->
  get queue ((false, w) :: rounds)
  = if is_Exception e
    then let '(r, queue'', n) := get queue' rounds in (r, queue'', S n)
    else (Finished (Raises e), queue', 1).
Proof. intros E. cbn [get]. now rewrite E. Qed.

Lemma get_raises_only_non_Exception (rounds : list (bool * wait)) :
  forall (queue : Q) e queue' n,
  get queue rounds = (Finished (Raises e), queue', n) -> is_Exception e = false.
Proof.
  induction rounds as [|[stopped w] rounds IH]; intros queue e queue' n;
    [discriminate|].
  cbn [get]. destruct stopped; [discriminate|].
  destruct (queue_get queue w) as [[x|e'] q1]; [discriminate|].
  destruct (is_Exception e') eqn:E'.
  - destruct (get q1 rounds) as [[r q2] k] eqn:E. intros [= -> -> <-].
    exact (IH _ _ _ _ E).
  - now intros [= <- _ _].
Qed.

Lemma get_never_raised_on_worker (rounds : list (bool * wait)) :
  forall (queue : Q) e queue' n, get queue rounds <> (RaisedOnWorker e, queue', n).
Proof.
  induction rounds as [|[stopped w] rounds IH]; intros queue e queue' n;
    [discriminate|].
  cbn [get]. destruct stopped; [discriminate|].
  destruct (queue_get queue w) as [[x|e'] q1]; [discriminate|].
  destruct (is_Exception e'); [|discriminate].
  destruct (get q1 rounds) as [[r q2] k] eqn:E. intros [= -> -> <-].
  exact (IH _ _ _ _ E).
Qed.

Lemma run_sync_retrying (result : progress * Q * nat) queue n :
  run_sync result = (Retrying, queue, n) -> result = (Retrying, queue, n).
Proof. now destruct result as [[[[x|e]| |e] q] k]. Qed.

Lemma run_sync_raised (result : progress * Q * nat) e queue n :
  run_sync result = (RaisedOnWorker e, queue, n) ->
  result = (Finished (Raises e), queue, n)
  \/ result = (RaisedOnWorker e, queue, n).
Proof.
  destruct result as [[[[x|e']| |e'] q] k]; cbn; intros [= <- <- <-]; auto.
Qed.

Lemma run_sync_counts (result : progress * Q * nat) :
  run_sync (let '(r, queue, n) := result in (r, queue, S n))
  = let '(r, queue, n) := run_sync result in (r, queue, S n).
Proof. now destruct result as [[[[x|e]| |e] q] k]. Qed.

End Retry.

Lemma quiet_retries n : get ([] : list item) (quiet n) = (Retrying, [], n).
Proof.
  induction n as [|n IH]; [reflexivity|].
  unfold quiet in *. cbn [replicate get queue_get fifo_queue fifo_get is_Exception].
  now rewrite IH.
Qed.

(** Claim C5.  Before each attempt the flag is read, and when it is found
    set the call returns an absent result at once: after any number of
    attempts that were retried, no further [queue.get] is made and the queue
    is left as it was.  With the flag clear, a [queue.Queue] that holds an
    item when the call is made yields that item as a present result, after
    one attempt. *)
Theorem receive_from_queue_checks_flag_before_each_attempt :
  (forall Q (B : BlockingQueue Q) (queue : Q) before w after queue' n,
     receive_from_queue queue before = (Retrying, queue', n) ->
     receive_from_queue queue (before ++ (true, w) :: after)
     = (Finished (Returns None), queue', n))
  /\ (forall (x : item) (q : list item) (p : producer) after,
     receive_from_queue (x :: q) ((false, p) :: after)
     = (Finished (Returns (Some x)), q, 1)).
Proof.
  split.
  - intros Q B queue before w after queue' n E.
    unfold receive_from_queue in *. apply run_sync_retrying in E.
    rewrite (get_app before queue _ queue' n E), get_stopped.
    now rewrite Nat.add_0_r.
  - reflexivity.
Qed.

Lemma receive_from_queue_checks_flag_before_each_attempt_witness :
  receive_from_queue ([] : list item) (quiet 3 ++ [(true, Puts 5)])
  = (Finished (Returns None), [], 3).
Proof.
  exact (proj1 receive_from_queue_checks_flag_before_each_attempt
           (list item) fifo_queue [] (quiet 3) (Puts 5) [] [] 3 eq_refl).
Defined.

(** Claim C5 as it is worded also promises the item whenever one was
    enqueued before the call.  With the flag set the item stays in the
    queue and the result is absent. *)
Lemma stop_flag_hides_enqueued_item :
  ~ (forall (x : item) (q : list item) (r : bool * producer) rounds,
       fst (fst (receive_from_queue (x :: q) (r :: rounds)))
       = Finished (Returns (Some x)))
  /\ receive_from_queue [7] [(true, Idle)] = (Finished (Returns None), [7], 0).
Proof.
  split; [|reflexivity].
  intros H. specialize (H 7 [] (true, Idle) []). discriminate.
Qed.

(** Claim C7.  An attempt that raises an [Exception], the timeout
    [queue.Empty] or any other, is followed by the next round: the fault is
    swallowed in the retry loop.  So no [Exception] ever leaves the retry
    loop, and none takes the way of a fault through [run_sync]: what is
    raised out of the loop, on the thread that ran it, is an exception
    outside [Exception] only. *)
Theorem get_swallows_every_Exception
    Q (B : BlockingQueue Q) (queue : Q) w rounds e queue' :
  queue_get queue w = (Raises e, queue') ->
  receive_from_queue queue ((false, w) :: rounds)
  = (if is_Exception e
     then let '(r, queue'', n) := receive_from_queue queue' rounds in
          (r, queue'', S n)
     else (RaisedOnWorker e, queue', 1))
  /\ (forall (queue0 : Q) rounds0 e' q n,
        get queue0 rounds0 = (Finished (Raises e'), q, n) ->
        is_Exception e' = false)
  /\ (forall (queue0 : Q) rounds0 e' q n,
        receive_from_queue queue0 rounds0 = (RaisedOnWorker e', q, n) ->
        is_Exception e' = false).
Proof.
  intros E. split; [|split].
  - unfold receive_from_queue. rewrite (get_swallows _ _ _ _ _ E).
    destruct (is_Exception e); [apply run_sync_counts|reflexivity].
  - intros queue0 rounds0 e' q n. apply get_raises_only_non_Exception.
  - intros queue0 rounds0 e' q n H. unfold receive_from_queue in H.
    apply run_sync_raised in H as [H|H].
    + exact (get_raises_only_non_Exception _ _ _ _ _ H).
    + now apply get_never_raised_on_worker in H.
Qed.

Lemma get_swallows_every_Exception_witness :
  receive_from_queue [Raises (QueueFault "store unreachable"); Returns 7]
                     [(false, tt); (false, tt)]
  = (Finished (Returns (Some 7)), [], 2).
Proof.
  exact (proj1 (get_swallows_every_Exception
                  (list (outcome item)) scripted_queue
                  [Raises (QueueFault "store unreachable"); Returns 7] tt
                  [(false, tt)] (QueueFault "store unreachable") [Returns 7]
                  eq_refl)).
Defined.

(** Claim C7 as it is worded lets a fault of the queue that is no timeout
    leave the retry loop and take the way of a fault through [run_sync].
    It is swallowed like the timeout: the next round runs, and here it
    yields an item. *)
Lemma queue_fault_is_not_propagated :
  ~ (forall (what : string) (q : list (outcome item)) rounds,
       fst (fst (get (Raises (QueueFault what) :: q) ((false, tt) :: rounds)))
       = Finished (Raises (QueueFault what)))
  /\ ~ (forall (what : string) (q : list (outcome item)) rounds,
         fst (fst (receive_from_queue (Raises (QueueFault what) :: q)
                                      ((false, tt) :: rounds)))
         = RaisedOnWorker (QueueFault what))
  /\ receive_from_queue [Raises (QueueFault "store unreachable"); Returns 7]
                        [(false, tt); (false, tt)]
     = (Finished (Returns (Some 7)), [], 2).
Proof.
  split; [|split; [|reflexivity]].
  - intros H. specialize (H "store unreachable" [Returns 7] [(false, tt)]).
    discriminate.
  - intros H. specialize (H "store unreachable" [Returns 7] [(false, tt)]).
    discriminate.
Qed.

(** *** stop *)

Lemma stop_pending t es ev :
  shutdown_event t = Some ev ->
  stop t es = Returns (set_shutdown_event t None, <[ev := true]> es).
Proof. intros E. unfold stop. now rewrite E. Qed.

Lemma stop_cleared t es : shutdown_event t = None -> stop t es = Returns (t, es).
Proof. intros E. unfold stop. now rewrite E. Qed.

Lemma insert_keeps_set (es : list bool) ev ev' :
  es !! ev = Some true -> <[ev' := true]> es !! ev = Some true.
Proof.
  intros H. destruct (decide (ev' = ev)) as [->|Hne].
  - apply list_lookup_insert_eq. now apply lookup_lt_Some in H.
  - now rewrite list_lookup_insert_ne.
Qed.

Lemma stop_total t es :
  exists t' es',
    stop t es = Returns (t', es')
    /\ stop t' es' = Returns (t', es')
    /\ (shutdown_event t = None -> t' = t /\ es' = es)
    /\ (forall ev, shutdown_event t = Some ev -> ev < length es ->
                   es' !! ev = Some true)
    /\ (forall ev, es !! ev = Some true -> es' !! ev = Some true).
Proof.
  destruct (shutdown_event t) as [ev|] eqn:E.
  - exists (set_shutdown_event t None), (<[ev := true]> es).
    split; [now apply stop_pending|]. split; [now apply stop_cleared|].
    split; [discriminate|]. split.
    + intros ? [= <-] L. now apply list_lookup_insert_eq.
    + intros ev' H. now apply insert_keeps_set.
  - exists t, es. rewrite (stop_cleared _ _ E).
    repeat split; [discriminate|auto].
Qed.

(** An event that is set stays set. *)
Lemma is_set_app ev (es : list bool) extra :
  es !! ev = Some true -> (es ++ extra) !! ev = Some true.
Proof. intros H. now apply lookup_app_l_Some. Qed.

Lemma run_func_enter_keeps_set tid w ev :
  is_set ev w -> is_set ev (run_func_enter tid w).
Proof.
  unfold is_set, run_func_enter. intros H.
  destruct (TMP_THREADS w !! tid) as [t|]; [|exact H].
  destruct (at_phase t); try exact H.
  destruct (match loop t with Some l => _ | None => _ end) as [l ls].
  cbn [events]. now apply is_set_app.
Qed.

Lemma resume_events tid w : events (resume tid w) = events w.
Proof.
  unfold resume. destruct (TMP_THREADS w !! tid) as [t|]; [|reflexivity].
  destruct (at_phase t) as [|l ev|l|]; try reflexivity.
  now destruct (events w !! ev) as [[|]|].
Qed.

Lemma serve_round_events tid ready w : events (serve_round tid ready w) = events w.
Proof.
  unfold serve_round. destruct (TMP_THREADS w !! tid) as [t|]; [|reflexivity].
  destruct (at_phase t) as [|l ev|l|]; try reflexivity.
  destruct (loops w !! l) as [lp|]; [|reflexivity].
  destruct (run_ready lp ready) as [lp' raised].
  now destruct (raised || stopping lp').
Qed.

Lemma stop_thread_keeps_set tid w ev :
  is_set ev w -> is_set ev (stop_thread tid w).
Proof.
  unfold is_set, stop_thread. intros H.
  destruct (TMP_THREADS w !! tid) as [t|]; [|exact H].
  destruct (stop_total t (events w)) as (t' & es' & -> & _ & _ & _ & Hkeep).
  cbn [events]. now apply Hkeep.
Qed.

Lemma lookup_or_spawn_events name w : events (snd (lookup_or_spawn name w)) = events w.
Proof. unfold lookup_or_spawn. now destruct (EVENT_LOOPS w !! name). Qed.

Lemma lookup_only_events name w : events (lookup_only name w) = events w.
Proof. unfold lookup_only. now destruct (EVENT_LOOPS w !! name). Qed.

Lemma spawn_after_miss_events name w : events (spawn_after_miss name w) = events w.
Proof. unfold spawn_after_miss. now destruct (take_out name (missed w)). Qed.

Lemma act_keeps_set a w ev : is_set ev w -> is_set ev (act w a).
Proof.
  destruct a as [tid|name|name|name]; cbn [act].
  - apply run_func_enter_keeps_set.
  - unfold is_set. now rewrite lookup_or_spawn_events.
  - unfold is_set. now rewrite lookup_only_events.
  - unfold is_set. now rewrite spawn_after_miss_events.
Qed.

Lemma sleep_keeps_set seconds during w ev :
  is_set ev w -> is_set ev (sleep seconds during w).
Proof.
  unfold sleep. revert w. induction during as [|a during IH]; intros w H.
  - exact H.
  - cbn [foldl]. apply IH. now apply act_keeps_set.
Qed.

Lemma get_named_event_loop_keeps_set name during w ev :
  is_set ev w -> is_set ev (snd (get_named_event_loop name during w)).
Proof.
  unfold get_named_event_loop. intros H.
  destruct (EVENT_LOOPS w !! name); [exact H|].
  cbn [run_async snd]. now apply sleep_keeps_set.
Qed.

Lemma apply_op_keeps_set o w ev : is_set ev w -> is_set ev (apply_op w o).
Proof.
  destruct o; cbn [apply_op].
  - apply run_func_enter_keeps_set.
  - unfold is_set. now rewrite resume_events.
  - unfold is_set. now rewrite serve_round_events.
  - apply stop_thread_keeps_set.
  - apply get_named_event_loop_keeps_set.
  - unfold is_set. now rewrite lookup_or_spawn_events.
  - apply sleep_keeps_set.
  - unfold is_set. now rewrite lookup_only_events.
  - unfold is_set. now rewrite spawn_after_miss_events.
Qed.

Lemma run_keeps_set ops : forall w ev, is_set ev w -> is_set ev (run ops w).
Proof.
  unfold run. induction ops as [|o ops IH]; intros w ev H; [exact H|].
  cbn [foldl]. apply IH. now apply apply_op_keeps_set.
Qed.

(** Claim C8.  [stop()] never faults; a second call changes nothing; it
    changes nothing either when the thread holds no event; when it holds
    one, the event is set; an event that is set stays set, through [stop()]
    and through every run of the module. *)
Theorem stop_is_idempotent (t : AsyncThread) (es : list bool) :
  exists t' es',
    stop t es = Returns (t', es')
    /\ stop t' es' = Returns (t', es')
    /\ (shutdown_event t = None -> t' = t /\ es' = es)
    /\ (forall ev, shutdown_event t = Some ev -> ev < length es ->
                   es' !! ev = Some true)
    /\ (forall ev, es !! ev = Some true -> es' !! ev = Some true)
    /\ (forall ops w ev, is_set ev w -> is_set ev (run ops w)).
Proof.
  destruct (stop_total t es) as (t' & es' & H1 & H2 & H3 & H4 & H5).
  exists t', es'. repeat split; try assumption; try (now apply H3).
  intros ops w ev. apply run_keeps_set.
Qed.

(** Two calls in a row on a thread in its serve loop, run. *)
Example stop_twice :
  stop_thread 0 (stop_thread 0 serving_world) = stop_thread 0 serving_world
  /\ is_set 0 (stop_thread 0 serving_world)
  /\ shutdown_event <$> TMP_THREADS (stop_thread 0 serving_world) !! 0
     = Some None.
Proof. repeat split. Qed.

(** *** The serve loop *)

Lemma run_ready_callbacks ready : forall lp,
  existsb ends_loop ready = false ->
  run_ready lp ready
  = ({| stopping := stopping lp; ran := ran lp ++ callbacks ready |}, false).
Proof.
  induction ready as [|k ready IH]; intros lp H.
  - cbn. rewrite app_nil_r. now destruct lp.
  - destruct k as [id| |]; [|discriminate..]. cbn [existsb ends_loop orb] in H.
    cbn [run_ready]. rewrite (IH _ H). cbn. now rewrite <- app_assoc.
Qed.

Lemma run_ready_stopping ready : forall lp,
  stopping lp = true ->
  snd (run_ready lp ready) || stopping (fst (run_ready lp ready)) = true.
Proof.
  induction ready as [|k ready IH]; intros lp H; [exact H|].
  destruct k as [id| |]; cbn [run_ready]; [apply IH; exact H|now apply IH|reflexivity].
Qed.

Lemma run_ready_ends ready : forall lp,
  existsb ends_loop ready = true ->
  snd (run_ready lp ready) || stopping (fst (run_ready lp ready)) = true.
Proof.
  induction ready as [|k ready IH]; intros lp H; [discriminate|].
  destruct k as [id| |]; cbn [run_ready].
  - now apply IH.
  - now apply run_ready_stopping.
  - reflexivity.
Qed.

Lemma serve_round_serving w tid t l lp ready :
  TMP_THREADS w !! tid = Some t -> at_phase t = Serving l ->
  loops w !! l = Some lp -> stopping lp = false ->
  existsb ends_loop ready = false ->
  serve_round tid ready w
  = {| EVENT_LOOPS := EVENT_LOOPS w; TMP_THREADS := TMP_THREADS w;
       events := events w;
       loops := <[l := {| stopping := false; ran := ran lp ++ callbacks ready |}]>
                  (loops w);
       clock := clock w; missed := missed w |}.
Proof.
  intros Ht Hp Hl Hs Hr. unfold serve_round. rewrite Ht, Hp, Hl.
  rewrite (run_ready_callbacks _ _ Hr). cbn [orb stopping]. now rewrite Hs.
Qed.

Lemma serve_round_ends w tid t l lp ready :
  TMP_THREADS w !! tid = Some t -> at_phase t = Serving l ->
  loops w !! l = Some lp -> existsb ends_loop ready = true ->
  phase_of tid (serve_round tid ready w) = Some Terminated.
Proof.
  intros Ht Hp Hl Hr. unfold serve_round. rewrite Ht, Hp, Hl.
  pose proof (run_ready_ends ready lp Hr) as He.
  destruct (run_ready lp ready) as [lp' raised]. cbn [fst snd] in He. rewrite He.
  unfold phase_of. cbn [TMP_THREADS].
  rewrite list_lookup_insert_eq by (now apply lookup_lt_Some in Ht). reflexivity.
Qed.

Lemma serve_terminated rounds : forall w tid,
  phase_of tid w = Some Terminated -> serve tid rounds w = w.
Proof.
  unfold serve. induction rounds as [|ready rounds IH]; intros w tid H; [reflexivity|].
  cbn [foldl]. assert (E : serve_round tid ready w = w).
  { unfold serve_round. unfold phase_of in H.
    destruct (TMP_THREADS w !! tid) as [t|]; [|reflexivity].
    injection H as H. now rewrite H. }
  rewrite E. now apply IH.
Qed.

Lemma serve_keeps_serving rounds : forall w tid t l lp,
  TMP_THREADS w !! tid = Some t -> at_phase t = Serving l ->
  loops w !! l = Some lp -> stopping lp = false ->
  only_callbacks rounds = true ->
  TMP_THREADS (serve tid rounds w) = TMP_THREADS w
  /\ events (serve tid rounds w) = events w
  /\ loops (serve tid rounds w) !! l
     = Some {| stopping := false;
               ran := ran lp ++ concat (callbacks <$> rounds) |}.
Proof.
  unfold serve, only_callbacks.
  induction rounds as [|ready rounds IH]; intros w tid t l lp Ht Hp Hl Hs Hr.
  - cbn. rewrite app_nil_r, Hl. destruct lp as [s r]. cbn in Hs. now subst.
  - cbn [existsb] in Hr. apply negb_true_iff, orb_false_elim in Hr as [Hr Hrs].
    cbn [foldl]. rewrite (serve_round_serving _ _ _ _ _ _ Ht Hp Hl Hs Hr).
    set (w1 := Build_World _ _ _ _ _ _).
    destruct (IH w1 tid t l {| stopping := false; ran := ran lp ++ callbacks ready |})
      as (H1 & H2 & H3); try assumption; try reflexivity.
    + cbn [w1 loops]. apply list_lookup_insert_eq. now apply lookup_lt_Some in Hl.
    + now apply negb_true_iff.
    + rewrite H1, H2, H3. cbn [ran fmap list_fmap concat w1 TMP_THREADS events].
      now rewrite <- app_assoc.
Qed.

Lemma serve_phase rounds : forall w tid t l lp,
  TMP_THREADS w !! tid = Some t -> at_phase t = Serving l ->
  loops w !! l = Some lp -> stopping lp = false ->
  phase_of tid (serve tid rounds w)
  = Some (if only_callbacks rounds then Serving l else Terminated).
Proof.
  induction rounds as [|ready rounds IH]; intros w tid t l lp Ht Hp Hl Hs.
  - unfold phase_of, serve. cbn [foldl]. rewrite Ht. cbn. now rewrite Hp.
  - unfold only_callbacks. cbn [existsb].
    destruct (existsb ends_loop ready) eqn:Hr; cbn [orb negb].
    + change (serve tid (ready :: rounds) w)
        with (serve tid rounds (serve_round tid ready w)).
      rewrite serve_terminated; now apply (serve_round_ends w tid t l lp).
    + change (serve tid (ready :: rounds) w)
        with (serve tid rounds (serve_round tid ready w)).
      rewrite (serve_round_serving _ _ _ _ _ _ Ht Hp Hl Hs Hr).
      apply (IH _ tid t l {| stopping := false; ran := ran lp ++ callbacks ready |});
        try assumption; try reflexivity.
      cbn [loops]. apply list_lookup_insert_eq. now apply lookup_lt_Some in Hl.
Qed.

Lemma stop_thread_pending w tid t ev :
  TMP_THREADS w !! tid = Some t -> shutdown_event t = Some ev ->
  stop_thread tid w
  = {| EVENT_LOOPS := EVENT_LOOPS w;
       TMP_THREADS := <[tid := set_shutdown_event t None]> (TMP_THREADS w);
       events := <[ev := true]> (events w);
       loops := loops w; clock := clock w; missed := missed w |}.
Proof.
  intros Ht He. unfold stop_thread. now rewrite Ht, (stop_pending _ _ _ He).
Qed.

(** Claim C6.  On a thread that holds its shutdown event, [stop()] sets
    the event and clears the thread's reference to it, and that is all it
    does: registry, loops, the other threads and events are as before, and
    the thread is where it was in [run_func].  In the serve loop nothing
    looks at the event: the thread is still in [loop.run_forever()] after
    any number of turns in which nothing calls [loop.stop()] and no callback
    raises [SystemExit] or [KeyboardInterrupt], with every callback
    scheduled after the call run, and it is terminated exactly when one of
    the turns had such a callback.  A coroutine returned by the initializer
    that waits for the event is where the event is seen: it is still
    waiting right after [stop()], finishes when it is resumed, and
    [run_func] enters the serve loop then. *)
Theorem stop_leaves_the_serve_loop_running w tid t ev l :
  TMP_THREADS w !! tid = Some t -> shutdown_event t = Some ev ->
  ev < length (events w) ->
  stop_thread tid w
  = {| EVENT_LOOPS := EVENT_LOOPS w;
       TMP_THREADS := <[tid := set_shutdown_event t None]> (TMP_THREADS w);
       events := <[ev := true]> (events w);
       loops := loops w; clock := clock w; missed := missed w |}
  /\ is_set ev (stop_thread tid w)
  /\ TMP_THREADS (stop_thread tid w) !! tid = Some (set_shutdown_event t None)
  /\ phase_of tid (stop_thread tid w) = Some (at_phase t)
  /\ (at_phase t = Serving l ->
      forall lp rounds,
        loops w !! l = Some lp -> stopping lp = false ->
        phase_of tid (serve tid rounds (stop_thread tid w))
        = Some (if only_callbacks rounds then Serving l else Terminated)
        /\ (only_callbacks rounds = true ->
            work_done l (serve tid rounds (stop_thread tid w))
            = ran lp ++ concat (callbacks <$> rounds)
            /\ is_set ev (serve tid rounds (stop_thread tid w))))
  /\ (at_phase t = Completing l ev ->
      phase_of tid (resume tid (stop_thread tid w)) = Some (Serving l)
      /\ forall lp rounds,
           loops w !! l = Some lp -> stopping lp = false ->
           phase_of tid (serve tid rounds (resume tid (stop_thread tid w)))
           = Some (if only_callbacks rounds then Serving l else Terminated)).
Proof.
  intros Ht He Lev. pose proof (lookup_lt_Some _ _ _ Ht) as Lt.
  rewrite (stop_thread_pending _ _ _ _ Ht He).
  set (w' := Build_World _ _ _ _ _ _).
  assert (Ht' : TMP_THREADS w' !! tid = Some (set_shutdown_event t None))
    by (now apply list_lookup_insert_eq).
  assert (Hset : is_set ev w') by (now apply list_lookup_insert_eq).
  split; [reflexivity|]. split; [exact Hset|]. split; [exact Ht'|].
  split; [unfold phase_of; now rewrite Ht'|]. split.
  - intros Hp lp rounds Hl Hs. split.
    + now apply (serve_phase rounds w' tid (set_shutdown_event t None) l lp).
    + intros Hr.
      destruct (serve_keeps_serving rounds w' tid (set_shutdown_event t None) l lp
                  Ht' Hp Hl Hs Hr) as (H1 & H2 & H3).
      unfold work_done, is_set. rewrite H2, H3. split; [reflexivity|exact Hset].
  - intros Hp.
    assert (E : resume tid w'
                = set_threads w'
                    (<[tid := set_phase (set_shutdown_event t None) (Serving l)]>
                       (TMP_THREADS w'))).
    { unfold resume. rewrite Ht'. cbn [set_shutdown_event at_phase]. rewrite Hp.
      unfold is_set in Hset. now rewrite Hset. }
    assert (Ht'' : TMP_THREADS (resume tid w') !! tid
                   = Some (set_phase (set_shutdown_event t None) (Serving l))).
    { rewrite E. cbn [set_threads TMP_THREADS]. apply list_lookup_insert_eq.
      now apply lookup_lt_Some in Ht'. }
    split; [unfold phase_of; now rewrite Ht''|].
    intros lp rounds Hl Hs.
    apply (serve_phase rounds _ tid _ l lp Ht''); [reflexivity| |exact Hs].
    now rewrite E.
Qed.

Lemma stop_leaves_the_serve_loop_running_witness :
  (phase_of 0 (serve 0 [[Callback 1]; [Callback 2]] (stop_thread 0 serving_world))
   = Some (Serving 0)
   /\ work_done 0 (serve 0 [[Callback 1]; [Callback 2]]
                         (stop_thread 0 serving_world))
      = [1; 2]
   /\ phase_of 0 (serve 0 [[Callback 1]; [Callback 2; CallsLoopStop]; [Callback 3]]
                        (stop_thread 0 serving_world))
      = Some Terminated)
  /\ phase_of 0 (resume 0 (stop_thread 0 waiting_world)) = Some (Serving 0).
Proof.
  pose proof (stop_leaves_the_serve_loop_running serving_world 0
                {| async_func_gen := None; loop := None; shutdown_event := Some 0;
                   at_phase := Serving 0 |} 0 0 eq_refl eq_refl (le_n 1))
    as (_ & _ & _ & _ & Hserve & _).
  pose proof (stop_leaves_the_serve_loop_running waiting_world 0
                {| async_func_gen := Some (Caller (Some UntilShutdown));
                   loop := None; shutdown_event := Some 0;
                   at_phase := Completing 0 0 |} 0 0 eq_refl eq_refl (le_n 1))
    as (_ & _ & _ & _ & _ & Hwait).
  split; [|exact (proj1 (Hwait eq_refl))].
  destruct (Hserve eq_refl {| stopping := false; ran := [] |}
              [[Callback 1]; [Callback 2]] eq_refl eq_refl) as [H1 H2].
  split; [exact H1|]. split; [exact (proj1 (H2 eq_refl))|].
  exact (proj1 (Hserve eq_refl {| stopping := false; ran := [] |}
                  [[Callback 1]; [Callback 2; CallsLoopStop]; [Callback 3]]
                  eq_refl eq_refl)).
Defined.

(** A coroutine that waits for the shutdown event sees it at its next
    resumption after [stop()]; [run_func] then enters the serve loop. *)
Example waiting_coroutine_ends_in_serve_loop :
  phase_of 0 waiting_world = Some (Completing 0 0)
  /\ phase_of 0 (run [Resume 0] waiting_world) = Some (Completing 0 0)
  /\ phase_of 0 (run [Stop 0; Resume 0] waiting_world) = Some (Serving 0)
  /\ phase_of 0 (run [Stop 0; Resume 0; Turn 0 [Callback 1]] waiting_world)
     = Some (Serving 0).
Proof. repeat split. Qed.

(** What ends the serve loop, with or without [stop()]: a callback that
    calls [loop.stop()], after which the callbacks that were ready with it
    still run, or a callback that raises [SystemExit], after which they do
    not. *)
Example serve_loop_ends :
  phase_of 0 (run [Turn 0 [Callback 1; CallsLoopStop; Callback 2]] serving_world)
  = Some Terminated
  /\ work_done 0 (run [Turn 0 [Callback 1; CallsLoopStop; Callback 2]] serving_world)
     = [1; 2]
  /\ phase_of 0 (run [Turn 0 [Callback 1; RaisesExit; Callback 2]] serving_world)
     = Some Terminated
  /\ work_done 0 (run [Turn 0 [Callback 1; RaisesExit; Callback 2]] serving_world)
     = [1].
Proof. repeat split. Qed.

(** Claim C6 as it is worded has the thread terminated some bounded time
    after [stop()].  No number of turns of the serve loop brings that about,
    and callbacks scheduled after the call are run. *)
Lemma stop_does_not_end_the_thread :
  ~ (exists bound, forall rounds, bound <= length rounds ->
       phase_of 0 (serve 0 rounds (stop_thread 0 serving_world)) = Some Terminated)
  /\ work_done 0 (serve 0 [[Callback 1]; [Callback 2]] (stop_thread 0 serving_world))
     = [1; 2]
  /\ is_set 0 (stop_thread 0 serving_world).
Proof.
  split; [|split; reflexivity].
  intros [bound H]. specialize (H (replicate bound []) ltac:(now rewrite length_replicate)).
  assert (Hr : only_callbacks (replicate bound []) = true)
    by (clear; unfold only_callbacks; induction bound; [reflexivity|assumption]).
  destruct (serve_keeps_serving (replicate bound []) (stop_thread 0 serving_world) 0
              {| async_func_gen := None; loop := None; shutdown_event := None;
                 at_phase := Serving 0 |} 0 {| stopping := false; ran := [] |}
              eq_refl eq_refl eq_refl eq_refl Hr) as (H1 & _).
  unfold phase_of in H. rewrite H1 in H. discriminate.
Qed.

(** *** The registry *)

Lemma settled_only_pending name w :
  settled name w = true <-> only_pending name None w.
Proof.
  unfold settled, only_pending. split.
  - intros H i t Ht Hp. exfalso.
    apply list_elem_of_lookup_2, list_elem_of_In in Ht.
    rewrite forallb_forall in H. specialize (H _ Ht). now rewrite Hp in H.
  - intros H. apply forallb_forall. intros t Ht.
    apply list_elem_of_In, list_elem_of_lookup_1 in Ht as [i Hi].
    destruct (pending name t) eqn:E; [|reflexivity]. now specialize (H _ _ Hi E).
Qed.

Lemma pending_set_phase name t p :
  p <> Started -> pending name (set_phase t p) = false.
Proof. unfold pending. cbn. now destruct p. Qed.

Lemma pending_new_thread name n :
  n <> name -> pending name (new_thread (Some (RegisterLoop n)) None) = false.
Proof. intros Hne. unfold pending. cbn. now apply bool_decide_eq_false. Qed.

(** A thread that is not about to write under [name] leaves the entry alone
    when it is scheduled, and nobody becomes pending. *)
Lemma run_func_enter_other name keep tid w :
  keep <> Some tid -> only_pending name keep w ->
  EVENT_LOOPS (run_func_enter tid w) !! name = EVENT_LOOPS w !! name
  /\ only_pending name keep (run_func_enter tid w).
Proof.
  intros Hk Hw. unfold run_func_enter.
  destruct (TMP_THREADS w !! tid) as [t|] eqn:Ht; [|now split].
  destruct (at_phase t) as [|l e|l|] eqn:Hp; try now split.
  destruct (match loop t with Some l => _ | None => _ end) as [l ls].
  cbn [EVENT_LOOPS TMP_THREADS]. split.
  - destruct (async_func_gen t) as [[n|c]|] eqn:Hg; try reflexivity.
    apply lookup_insert_ne. intros ->. apply Hk, (Hw tid t Ht).
    unfold pending. rewrite Hp, Hg. now apply bool_decide_eq_true.
  - intros i t' Hi Hpend. cbn [TMP_THREADS] in Hi.
    destruct (decide (i = tid)) as [->|Hne].
    + rewrite list_lookup_insert_eq in Hi by (now apply lookup_lt_Some in Ht).
      injection Hi as <-. rewrite pending_set_phase in Hpend; [discriminate|].
      now destruct (match async_func_gen t with Some (Caller c) => c | _ => None end)
        as [[|]|].
    + rewrite list_lookup_insert_ne in Hi by congruence. exact (Hw i t' Hi Hpend).
Qed.

Lemma lookup_or_spawn_registry n w :
  EVENT_LOOPS (snd (lookup_or_spawn n w)) = EVENT_LOOPS w.
Proof. unfold lookup_or_spawn. now destruct (EVENT_LOOPS w !! n). Qed.

Lemma lookup_or_spawn_hit n l w :
  EVENT_LOOPS w !! n = Some l -> lookup_or_spawn n w = (Some l, w).
Proof. intros H. unfold lookup_or_spawn. now rewrite H. Qed.

Lemma only_pending_snoc name keep w t :
  only_pending name keep w -> pending name t = false ->
  only_pending name keep (set_threads w (TMP_THREADS w ++ [t])).
Proof.
  intros Hw Ht i t' Hi Hp. cbn [set_threads TMP_THREADS] in Hi.
  apply lookup_app_Some in Hi as [Hi|[_ Hi]]; [exact (Hw i t' Hi Hp)|].
  apply list_lookup_singleton_Some in Hi as [_ <-]. congruence.
Qed.

Lemma lookup_or_spawn_other name keep n w :
  n <> name -> only_pending name keep w ->
  only_pending name keep (snd (lookup_or_spawn n w)).
Proof.
  intros Hne Hw. unfold lookup_or_spawn.
  destruct (EVENT_LOOPS w !! n); [exact Hw|]. cbn [run_async snd].
  apply only_pending_snoc; [exact Hw|now apply pending_new_thread].
Qed.

Lemma lookup_only_threads n w :
  EVENT_LOOPS (lookup_only n w) = EVENT_LOOPS w
  /\ TMP_THREADS (lookup_only n w) = TMP_THREADS w.
Proof. unfold lookup_only. now destruct (EVENT_LOOPS w !! n). Qed.

Lemma spawn_after_miss_registry n w :
  EVENT_LOOPS (spawn_after_miss n w) = EVENT_LOOPS w.
Proof. unfold spawn_after_miss. now destruct (take_out n (missed w)). Qed.

Lemma spawn_after_miss_other name keep n w :
  n <> name -> only_pending name keep w ->
  only_pending name keep (spawn_after_miss n w).
Proof.
  intros Hne Hw. unfold spawn_after_miss.
  destruct (take_out n (missed w)) as [callers|]; [|exact Hw].
  cbn [run_async snd].
  apply (only_pending_snoc name keep (set_missed w callers));
    [exact Hw|now apply pending_new_thread].
Qed.

Lemma act_other name keep a w :
  quiet_for name keep a = true -> only_pending name keep w ->
  EVENT_LOOPS (act w a) !! name = EVENT_LOOPS w !! name
  /\ only_pending name keep (act w a).
Proof.
  destruct a as [tid|n|n|n]; cbn [quiet_for act]; intros Hq Hw.
  - apply negb_true_iff, bool_decide_eq_false in Hq.
    now apply run_func_enter_other.
  - apply negb_true_iff, bool_decide_eq_false in Hq.
    rewrite lookup_or_spawn_registry. split; [reflexivity|].
    now apply lookup_or_spawn_other.
  - destruct (lookup_only_threads n w) as [H1 H2].
    split; [now rewrite H1|]. unfold only_pending. now rewrite H2.
  - apply negb_true_iff, bool_decide_eq_false in Hq.
    rewrite spawn_after_miss_registry. split; [reflexivity|].
    now apply spawn_after_miss_other.
Qed.

Lemma foldl_act_other name keep during : forall w,
  forallb (quiet_for name keep) during = true -> only_pending name keep w ->
  EVENT_LOOPS (foldl act w during) !! name = EVENT_LOOPS w !! name
  /\ only_pending name keep (foldl act w during).
Proof.
  induction during as [|a during IH]; intros w Hq Hw; [now split|].
  cbn [forallb] in Hq. apply andb_prop in Hq as [Ha Hq]. cbn [foldl].
  destruct (act_other name keep a w Ha Hw) as [H1 H2].
  destruct (IH _ Hq H2) as [H3 H4]. split; [congruence|exact H4].
Qed.


Lemma only_pending_spawn name w :
  only_pending name None w ->
  only_pending name (Some (length (TMP_THREADS w)))
    (snd (run_async (Some (RegisterLoop name)) None w)).
Proof.
  intros Hw i t Hi Hp. cbn [run_async snd set_threads TMP_THREADS] in Hi.
  apply lookup_app_Some in Hi as [Hi|[Hle Hi]].
  - now specialize (Hw i t Hi Hp).
  - apply list_lookup_singleton_Some in Hi as [Hi _]. f_equal. lia.
Qed.

Lemma sleep_registry seconds during w :
  EVENT_LOOPS (sleep seconds during w) = EVENT_LOOPS (foldl act w during).
Proof. reflexivity. Qed.

(** Claim C10.  A call for a name that has no entry raises [KeyError] when
    the name has still no entry at the end of the one-second sleep, and
    returns the handle found there otherwise.  The name has still no entry
    when no thread started earlier is about to register it and, during the
    sleep, the thread just started is not scheduled and no other caller asks
    for the name. *)
Theorem unrecorded_name_raises_KeyError w name during :
  EVENT_LOOPS w !! name = None ->
  (EVENT_LOOPS (snd (get_named_event_loop name during w)) !! name = None ->
   fst (get_named_event_loop name during w) = Raises (KeyError name))
  /\ (forall l,
        EVENT_LOOPS (snd (get_named_event_loop name during w)) !! name = Some l ->
        fst (get_named_event_loop name during w) = Returns l)
  /\ (settled name w = true ->
      forallb (quiet_for name (Some (length (TMP_THREADS w)))) during = true ->
      fst (get_named_event_loop name during w) = Raises (KeyError name)).
Proof.
  intros Hn. unfold get_named_event_loop. rewrite Hn.
  destruct (run_async (Some (RegisterLoop name)) None w) as [tid w1] eqn:E.
  cbn [fst snd]. unfold subscript. split; [|split].
  - now intros ->.
  - now intros l ->.
  - intros Hs Hq. apply settled_only_pending, only_pending_spawn in Hs.
    rewrite E in Hs. cbn [snd] in Hs.
    destruct (foldl_act_other name _ during w1 Hq Hs) as [H1 _].
    assert (Hw1 : EVENT_LOOPS w1 !! name = None)
      by (injection E as _ <-; exact Hn).
    now rewrite sleep_registry, H1, Hw1.
Qed.

Lemma unrecorded_name_raises_KeyError_witness :
  fst (get_named_event_loop "a" [Enters "b"; Runs 1] empty_world)
  = Raises (KeyError "a").
Proof.
  exact (proj2 (proj2 (unrecorded_name_raises_KeyError
                         empty_world "a" [Enters "b"; Runs 1] eq_refl))
           eq_refl eq_refl).
Defined.

(** Claim C10 as it is worded raises whenever the thread just started has
    not written its entry.  Here a first call has missed; a second call
    starts thread 1, which is not scheduled during the sleep, while thread
    0, started by the first call, is: the second call returns the loop of
    thread 0. *)
Lemma entry_of_earlier_thread_is_returned :
  EVENT_LOOPS missed_once !! "a" = None
  /\ fst (get_named_event_loop "a" [Runs 0] missed_once) = Returns 0
  /\ phase_of 1 (snd (get_named_event_loop "a" [Runs 0] missed_once))
     = Some Started.
Proof. repeat split. Qed.

Lemma take_out_elem name callers : forall rest n,
  take_out name callers = Some rest -> n ∈ rest -> n ∈ callers.
Proof.
  induction callers as [|c callers IH]; intros rest n; [discriminate|].
  cbn [take_out]. destruct (bool_decide (c = name)).
  - intros [= <-] H. apply elem_of_cons. now right.
  - destruct (take_out name callers) as [r|] eqn:E; [|discriminate].
    cbn. intros [= <-] H. apply elem_of_cons in H as [->|H].
    + apply elem_of_cons. now left.
    + apply elem_of_cons. right. exact (IH r n eq_refl H).
Qed.

Lemma take_out_none name callers :
  forallb (fun n => negb (bool_decide (n = name))) callers = true ->
  take_out name callers = None.
Proof.
  induction callers as [|c callers IH]; [reflexivity|]. cbn [forallb take_out].
  intros H. apply andb_prop in H as [Hc H]. apply negb_true_iff in Hc.
  now rewrite Hc, (IH H).
Qed.

Lemma none_on_the_way_spec name w :
  none_on_the_way name w = true <-> name ∉ missed w.
Proof.
  unfold none_on_the_way. induction (missed w) as [|c callers IH].
  - split; [intros _; apply not_elem_of_nil|reflexivity].
  - cbn [forallb]. rewrite andb_true_iff, negb_true_iff, bool_decide_eq_false, IH.
    rewrite not_elem_of_cons. split; intros [H1 H2]; split; congruence.
Qed.

Lemma none_on_the_way_fields name w w' :
  missed w' = missed w -> none_on_the_way name w = true ->
  none_on_the_way name w' = true.
Proof. unfold none_on_the_way. now intros ->. Qed.

Lemma run_func_enter_missed tid w : missed (run_func_enter tid w) = missed w.
Proof.
  unfold run_func_enter. destruct (TMP_THREADS w !! tid) as [t|]; [|reflexivity].
  destruct (at_phase t) as [|l ev|l|]; try reflexivity.
  now destruct (match loop t with Some l => _ | None => _ end) as [l ls].
Qed.

Lemma lookup_or_spawn_missed n w : missed (snd (lookup_or_spawn n w)) = missed w.
Proof. unfold lookup_or_spawn. now destruct (EVENT_LOOPS w !! n). Qed.

Lemma lookup_only_registered name l n w :
  registered name l w -> registered name l (lookup_only n w).
Proof.
  intros (Hl & Hw & Hm). unfold lookup_only.
  destruct (EVENT_LOOPS w !! n) eqn:E; [now repeat split|].
  repeat split; [exact Hl|exact Hw|]. unfold none_on_the_way in *.
  cbn [set_missed missed]. rewrite forallb_app, Hm. cbn.
  rewrite andb_true_r. apply negb_true_iff, bool_decide_eq_false. congruence.
Qed.

Lemma spawn_after_miss_registered name l n w :
  registered name l w -> registered name l (spawn_after_miss n w).
Proof.
  intros (Hl & Hw & Hm). unfold spawn_after_miss.
  destruct (take_out n (missed w)) as [callers|] eqn:E; [|now repeat split].
  assert (Hne : n <> name).
  { intros ->. now rewrite (take_out_none _ _ Hm) in E. }
  cbn [run_async snd]. repeat split.
  - exact Hl.
  - apply (only_pending_snoc name None (set_missed w callers));
      [exact Hw|now apply pending_new_thread].
  - apply none_on_the_way_spec. cbn [set_threads set_missed missed].
    intros H. apply (take_out_elem _ _ _ _ E) in H.
    now apply none_on_the_way_spec in Hm.
Qed.

Lemma act_registered name l a w : registered name l w -> registered name l (act w a).
Proof.
  intros (Hl & Hw & Hm). destruct a as [tid|n|n|n]; cbn [act].
  - destruct (run_func_enter_other name None tid w) as [H1 H2];
      [discriminate|exact Hw|]. split; [congruence|]. split; [exact H2|].
    exact (none_on_the_way_fields _ _ _ (run_func_enter_missed tid w) Hm).
  - destruct (decide (n = name)) as [->|Hne].
    + now rewrite (lookup_or_spawn_hit _ _ _ Hl).
    + split; [now rewrite lookup_or_spawn_registry|].
      split; [now apply lookup_or_spawn_other|].
      exact (none_on_the_way_fields _ _ _ (lookup_or_spawn_missed n w) Hm).
  - now apply lookup_only_registered.
  - now apply spawn_after_miss_registered.
Qed.

Lemma sleep_registered name l seconds during w :
  registered name l w -> registered name l (sleep seconds during w).
Proof.
  intros H. assert (H' : registered name l (foldl act w during)).
  { revert w H. induction during as [|a during IH]; intros w H; [exact H|].
    cbn [foldl]. apply IH. now apply act_registered. }
  exact H'.
Qed.

Lemma only_pending_insert name w tid t t' :
  TMP_THREADS w !! tid = Some t ->
  (pending name t' = true -> pending name t = true) ->
  only_pending name None w ->
  forall i x, <[tid := t']> (TMP_THREADS w) !! i = Some x ->
              pending name x = true -> None = Some i.
Proof.
  intros Ht Hp Hw i x Hi Hx. destruct (decide (i = tid)) as [->|Hne].
  - rewrite list_lookup_insert_eq in Hi by (now apply lookup_lt_Some in Ht).
    injection Hi as <-. exact (Hw tid t Ht (Hp Hx)).
  - rewrite list_lookup_insert_ne in Hi by congruence. exact (Hw i x Hi Hx).
Qed.

Lemma resume_registered name l tid w :
  registered name l w -> registered name l (resume tid w).
Proof.
  intros (Hl & Hw & Hm). unfold resume.
  destruct (TMP_THREADS w !! tid) as [t|] eqn:Ht; [|now repeat split].
  destruct (at_phase t) as [|lp ev|lp|] eqn:Hp; try now repeat split.
  destruct (events w !! ev) as [[|]|]; try now repeat split.
  split; [exact Hl|]. split; [|exact Hm].
  intros i x Hi. cbn [set_threads TMP_THREADS] in Hi.
  revert Hi. apply (only_pending_insert name w tid t); [exact Ht| |exact Hw].
  now rewrite pending_set_phase.
Qed.

Lemma serve_round_registered name l tid ready w :
  registered name l w -> registered name l (serve_round tid ready w).
Proof.
  intros (Hl & Hw & Hm). unfold serve_round.
  destruct (TMP_THREADS w !! tid) as [t|] eqn:Ht; [|now repeat split].
  destruct (at_phase t) as [|lp ev|lp|] eqn:Hp; try now repeat split.
  destruct (loops w !! lp) as [x|]; [|now repeat split].
  destruct (run_ready x ready) as [x' raised].
  destruct (raised || stopping x'); [|now repeat split].
  split; [exact Hl|]. split; [|exact Hm].
  intros i y Hi. cbn [TMP_THREADS] in Hi.
  revert Hi. apply (only_pending_insert name w tid t); [exact Ht| |exact Hw].
  now rewrite pending_set_phase.
Qed.

Lemma stop_thread_registered name l tid w :
  registered name l w -> registered name l (stop_thread tid w).
Proof.
  intros (Hl & Hw & Hm). unfold stop_thread.
  destruct (TMP_THREADS w !! tid) as [t|] eqn:Ht; [|now repeat split].
  unfold stop, event_set. destruct (shutdown_event t) as [ev|]; cbn [EVENT_LOOPS].
  - split; [exact Hl|]. split; [|exact Hm].
    intros i y Hi. cbn [TMP_THREADS] in Hi.
    revert Hi. now apply (only_pending_insert name w tid t).
  - split; [exact Hl|]. split; [|exact Hm].
    intros i y Hi. cbn [TMP_THREADS] in Hi.
    revert Hi. now apply (only_pending_insert name w tid t).
Qed.

Lemma get_named_event_loop_hit name l during w :
  EVENT_LOOPS w !! name = Some l ->
  get_named_event_loop name during w = (Returns l, w).
Proof. intros H. unfold get_named_event_loop. now rewrite H. Qed.

Lemma get_named_event_loop_registered name l n during w :
  registered name l w ->
  registered name l (snd (get_named_event_loop n during w)).
Proof.
  intros H. unfold get_named_event_loop.
  destruct (EVENT_LOOPS w !! n) eqn:E; [exact H|].
  cbn [run_async snd]. apply sleep_registered. destruct H as (Hl & Hw & Hm).
  split; [exact Hl|]. split; [|exact Hm]. apply only_pending_snoc; [exact Hw|].
  apply pending_new_thread. intros ->. congruence.
Qed.

Lemma apply_op_registered name l o w :
  registered name l w -> registered name l (apply_op w o).
Proof.
  destruct o as [tid|tid|tid ready|tid|n during|n|seconds|n|n]; cbn [apply_op].
  - apply (act_registered name l (Runs tid)).
  - apply resume_registered.
  - apply serve_round_registered.
  - apply stop_thread_registered.
  - apply get_named_event_loop_registered.
  - apply (act_registered name l (Enters n)).
  - apply sleep_registered.
  - apply lookup_only_registered.
  - apply spawn_after_miss_registered.
Qed.

Lemma run_registered name l ops : forall w,
  registered name l w -> registered name l (run ops w).
Proof.
  unfold run. induction ops as [|o ops IH]; intros w H; [exact H|].
  cbn [foldl]. apply IH. now apply apply_op_registered.
Qed.

(** Claim C9.  A name that has an entry gets that handle back at once: no
    thread is started, no sleep, the world is as before.  And once every
    thread started for the name has written its entry and no caller that
    found no entry under the name is still on its way to [run_async],
    whatever the threads of the program do afterwards, other callers
    suspended between their lookup and their [run_async] included, every
    call for the name returns that same handle, and the two conditions hold
    for good. *)
Theorem registered_loop_is_returned_and_stays w name l :
  EVENT_LOOPS w !! name = Some l ->
  (forall during, get_named_event_loop name during w = (Returns l, w))
  /\ (settled name w = true -> none_on_the_way name w = true ->
      forall ops,
        (forall during,
           get_named_event_loop name during (run ops w) = (Returns l, run ops w))
        /\ settled name (run ops w) = true
        /\ none_on_the_way name (run ops w) = true).
Proof.
  intros Hl. split.
  - intros during. now apply get_named_event_loop_hit.
  - intros Hs Hm ops.
    destruct (run_registered name l ops w) as (H1 & H2 & H3).
    { split; [exact Hl|]. split; [now apply settled_only_pending|exact Hm]. }
    split; [|split; [now apply settled_only_pending|exact H3]].
    intros during. now apply get_named_event_loop_hit.
Qed.

Lemma registered_loop_is_returned_and_stays_witness :
  get_named_event_loop "a" []
    (run [Miss "b"; Call "b" [Runs 1]; Stop 0; Elapse 5; Start "b"; Schedule 2;
          Enter "a"; Miss "a"; Start "a"; Call "a" []]
         settled_world)
  = (Returns 0,
     run [Miss "b"; Call "b" [Runs 1]; Stop 0; Elapse 5; Start "b"; Schedule 2;
          Enter "a"; Miss "a"; Start "a"; Call "a" []]
         settled_world).
Proof.
  exact (proj1 (proj2 (registered_loop_is_returned_and_stays settled_world "a" 0
                         eq_refl) eq_refl eq_refl
                  [Miss "b"; Call "b" [Runs 1]; Stop 0; Elapse 5; Start "b";
                   Schedule 2; Enter "a"; Miss "a"; Start "a"; Call "a" []]) []).
Defined.

(** The second condition is needed.  With a caller suspended between its
    lookup and [run_async], every thread started for the name has written
    its entry and a call returns loop 0; then the suspended caller goes on
    and starts thread 1, and once that is scheduled the next call returns
    loop 1. *)
Example suspended_caller_changes_handle :
  settled "a" suspended_caller = true
  /\ none_on_the_way "a" suspended_caller = false
  /\ fst (get_named_event_loop "a" [] suspended_caller) = Returns 0
  /\ fst (get_named_event_loop "a" []
            (run [Start "a"; Schedule 1] suspended_caller)) = Returns 1.
Proof. repeat split; vm_compute; reflexivity. Qed.

(** Claim C9 as it is worded has the handle stable once a second has
    passed since the name was first registered.  Here the first entry is
    written at 2s; at 3s a call returns loop 0; then the thread of the
    second call, started at 1s, is scheduled at last and writes its own
    loop, and the next call returns loop 1. *)
Lemma late_registration_changes_handle :
  EVENT_LOOPS missed_twice !! "a" = None
  /\ clock first_recorded = 2 /\ EVENT_LOOPS first_recorded !! "a" = Some 0
  /\ clock interval_over = 3
  /\ fst (get_named_event_loop "a" [] interval_over) = Returns 0
  /\ clock second_recorded = 3
  /\ fst (get_named_event_loop "a" [] second_recorded) = Returns 1.
Proof. repeat split; vm_compute; reflexivity. Qed.

(** *** The pool without the semaphore *)

Lemma submit_legacy w fn :
  _idle_semaphore (pool w) = None ->
  exists w',
    submit w fn
    = (if length (_threads (pool w)) <? _max_workers (pool w)
       then ExecutorFuture fn else ResultFuture (length (transient w)), w')
    /\ _idle_semaphore (pool w') = None
    /\ _max_workers (pool w') = _max_workers (pool w)
    /\ length (_threads (pool w'))
       = (if length (_threads (pool w)) <? _max_workers (pool w)
          then S (length (_threads (pool w))) else length (_threads (pool w)))
    /\ length (transient w')
       = (if length (_threads (pool w)) <? _max_workers (pool w)
          then length (transient w) else S (length (transient w))).
Proof.
  intros Hs. unfold submit, has_idle_threads. rewrite Hs.
  destruct (length (_threads (pool w)) <? _max_workers (pool w)) eqn:L.
  - unfold executor_submit. cbn [_idle_semaphore]. rewrite Hs.
    unfold add_worker. cbn [_threads _max_workers]. rewrite L.
    eexists. split; [reflexivity|].
    cbn [pool transient _idle_semaphore _max_workers _threads].
    rewrite length_app. cbn [length].
    repeat split; try assumption; try reflexivity; lia.
  - unfold start_worker_thread. cbn [pool transient].
    eexists. split; [reflexivity|]. cbn [pool transient].
    rewrite length_app. cbn [length]. repeat split; try assumption; lia.
Qed.

Lemma worker_completes_legacy w w' :
  _idle_semaphore (pool w) = None -> worker_completes w = Some w' ->
  _idle_semaphore (pool w') = None
  /\ _threads (pool w') = _threads (pool w)
  /\ _max_workers (pool w') = _max_workers (pool w)
  /\ transient w' = transient w.
Proof.
  intros Hs. unfold worker_completes.
  destruct (_threads (pool w)); [discriminate|].
  destruct (_work_queue (pool w)); [discriminate|].
  intros [= <-]. cbn. now rewrite Hs.
Qed.

Lemma legacy_routing es : forall w,
  _idle_semaphore (pool w) = None ->
  is_transient <$> fst (pool_run w es)
  = replicate (min (spare w) (submitted es)) false
    ++ replicate (submitted es - spare w) true
  /\ length (_threads (pool (snd (pool_run w es))))
     = length (_threads (pool w)) + min (spare w) (submitted es)
  /\ length (transient (snd (pool_run w es)))
     = length (transient w) + (submitted es - spare w).
Proof.
  unfold spare.
  induction es as [|e es IH]; intros w Hs.
  - cbn [pool_run fst snd submitted fmap list_fmap]. rewrite Nat.min_0_r.
    cbn [replicate app Nat.sub]. split; [reflexivity|lia].
  - cbn [pool_run]. destruct e as [fn|]; cbn [pool_step submitted].
    + destruct (submit_legacy w fn Hs) as (w' & -> & Hs' & Hm & Ht & Hr).
      destruct (IH w' Hs') as (IH1 & IH2 & IH3).
      destruct (pool_run w' es) as [fs w''].
      cbn [fst snd] in *. change (option_list (Some ?x) ++ ?l) with (x :: l).
      rewrite fmap_cons, IH1, IH2, IH3, Hm, Ht, Hr.
      destruct (Nat.ltb_spec (length (_threads (pool w))) (_max_workers (pool w)))
        as [L|L]; cbn [is_transient].
      * replace (min (_max_workers (pool w) - length (_threads (pool w)))
                     (S (submitted es)))
          with (S (min (_max_workers (pool w) - S (length (_threads (pool w))))
                       (submitted es))) by lia.
        cbn [replicate app]. split; [|lia]. f_equal. f_equal. f_equal. lia.
      * replace (_max_workers (pool w) - length (_threads (pool w))) with 0 by lia.
        cbn [Nat.min replicate app]. rewrite !Nat.sub_0_r. cbn [replicate].
        split; [reflexivity|lia].
    + cbn [snd]. destruct (worker_completes w) as [w'|] eqn:E;
        cbn [default from_option id].
      * destruct (worker_completes_legacy _ _ Hs E) as (H0 & H1 & H2 & H3).
        destruct (IH w' H0) as (IH1 & IH2 & IH3).
        destruct (pool_run w' es) as [fs w''].
        cbn [fst snd] in *. change (option_list None ++ fs) with fs.
        now rewrite IH1, IH2, IH3, H1, H2, H3.
      * destruct (IH w Hs) as (IH1 & IH2 & IH3).
        destruct (pool_run w es) as [fs w''].
        cbn [fst snd] in *. auto.
Qed.

(** Property X6.  Where the executor has no [_idle_semaphore], a pool fills its
    core first and never returns to it: of the tasks submitted to a new pool
    the first [core_size] go to persistent workers, one new worker each, and
    every later one to a one-shot thread, also when workers have finished
    their items and are idle in between. *)
Theorem legacy_pool_fills_core_then_overflows core es :
  is_transient <$> fst (pool_run (legacy core) es)
  = replicate (min (effective_core core) (submitted es)) false
    ++ replicate (submitted es - effective_core core) true
  /\ length (_threads (pool (snd (pool_run (legacy core) es))))
     = min (effective_core core) (submitted es)
  /\ length (transient (snd (pool_run (legacy core) es)))
     = submitted es - effective_core core.
Proof.
  destruct (legacy_routing es (legacy core) eq_refl) as (H1 & H2 & H3).
  assert (E : spare (legacy core) = effective_core core)
    by (unfold spare, effective_core; cbn; lia).
  rewrite E in *. auto.
Qed.

(** *** Results of the retry loop *)

(** Property X8.  On an empty [queue.Queue] the call waits through the
    attempts that time out and hands over the first item that arrives: after
    [n] rounds without an item and with the flag clear, an item put during
    the next attempt is the result, after [n + 1] attempts. *)
Theorem item_arriving_later_is_received n (x : item) after :
  receive_from_queue ([] : list item) (quiet n ++ (false, Puts x) :: after)
  = (Finished (Returns (Some x)), [], S n).
Proof.
  unfold receive_from_queue.
  rewrite (@get_app (list item) fifo_queue (quiet n) [] _ [] n (quiet_retries n)).
  cbn [get queue_get fifo_queue fifo_get]. now rewrite Nat.add_1_r.
Qed.


(** *** Invariants of the threads and the registry *)

Lemma thread_ok_app es extra t : thread_ok es t -> thread_ok (es ++ extra) t.
Proof.
  unfold thread_ok. destruct (at_phase t) as [|l ev|l|]; try trivial.
  intros [L [H|H]]; (split; [rewrite length_app; lia|]); [now left|right].
  now apply lookup_app_l_Some.
Qed.

Lemma thread_ok_insert es ev t : thread_ok es t -> thread_ok (<[ev := true]> es) t.
Proof.
  unfold thread_ok. destruct (at_phase t) as [|l ev'|l|]; try trivial.
  intros [L [H|H]]; (split; [now rewrite length_insert|]); [now left|right].
  now apply insert_keeps_set.
Qed.

Lemma sound_empty : sound empty_world.
Proof.
  repeat split; try constructor; cbn; intros *; rewrite lookup_empty; discriminate.
Qed.

Lemma sound_spawn func l w :
  (forall name, func = Some (RegisterLoop name) -> l = None) ->
  sound w -> sound (snd (run_async func l w)).
Proof.
  intros Hf (H1 & H2 & H3). unfold run_async, sound.
  cbn [snd set_threads TMP_THREADS events]. repeat split.
  - apply Forall_app. split; [exact H1|]. now repeat constructor.
  - apply Forall_app. split; [exact H2|]. repeat constructor. exact Hf.
  - apply H3.
  - apply H3.
Qed.

Lemma sound_run_func_enter tid w : sound w -> sound (run_func_enter tid w).
Proof.
  intros Hw. pose proof Hw as (H1 & H2 & H3 & H4). unfold run_func_enter.
  destruct (TMP_THREADS w !! tid) as [t|] eqn:Ht; [|exact Hw].
  destruct (at_phase t) as [|l0 e0|l0|] eqn:Hp; try exact Hw.
  pose proof (proj1 (Forall_lookup _ _) H2 tid t Ht) as Hc.
  assert (Hl : exists l ls,
             match loop t with
             | Some l => (l, loops w)
             | None => ensure_event_loop None (loops w)
             end = (l, ls)
             /\ length (loops w) <= length ls
             /\ (loop t = None -> l = length (loops w) /\ l < length ls)).
  { destruct (loop t) as [l|]; cbn [ensure_event_loop].
    - exists l, (loops w). split; [reflexivity|]. split; [lia|discriminate].
    - eexists _, _. split; [reflexivity|]. rewrite length_app. cbn [length].
      split; [lia|]. intros _. split; [reflexivity|lia]. }
  destruct Hl as (l & ls & -> & Hls & Hnew).
  unfold sound, registry_ok. cbn [EVENT_LOOPS TMP_THREADS events loops].
  split; [|split; [|split]].
  - apply Forall_insert.
    + eapply Forall_impl; [exact H1|]. intros t'. apply thread_ok_app.
    + unfold thread_ok. cbn [set_phase set_shutdown_event at_phase shutdown_event].
      destruct (match async_func_gen t with Some (Caller c) => c | _ => None end)
        as [[|]|]; try exact I.
      split; [rewrite length_app; cbn [length]; lia|now left].
  - apply Forall_insert; [exact H2|]. exact Hc.
  - intros name l'. destruct (async_func_gen t) as [[n|c]|] eqn:Hg;
      [|intros H; specialize (H3 _ _ H); lia..].
    destruct (Hnew (Hc n Hg)) as [-> Hlt].
    destruct (decide (n = name)) as [->|Hne].
    + rewrite lookup_insert_eq. now intros [= <-].
    + rewrite lookup_insert_ne by exact Hne. intros H. specialize (H3 _ _ H). lia.
  - intros n1 n2 l'. destruct (async_func_gen t) as [[n|c]|] eqn:Hg;
      [|exact (H4 n1 n2 l')..].
    destruct (Hnew (Hc n Hg)) as [-> Hlt].
    destruct (decide (n = n1)) as [E1|Hne1], (decide (n = n2)) as [E2|Hne2].
    + congruence.
    + subst n1. rewrite lookup_insert_eq, lookup_insert_ne by exact Hne2.
      intros [= <-] H. specialize (H3 _ _ H). lia.
    + subst n2. rewrite lookup_insert_eq, lookup_insert_ne by exact Hne1.
      intros H [= <-]. specialize (H3 _ _ H). lia.
    + rewrite !lookup_insert_ne by assumption. apply H4.
Qed.

Lemma sound_resume tid w : sound w -> sound (resume tid w).
Proof.
  intros Hw. pose proof Hw as (H1 & H2 & H3). unfold resume.
  destruct (TMP_THREADS w !! tid) as [t|] eqn:Ht; [|exact Hw].
  destruct (at_phase t) as [|l e|l|] eqn:Hp; try exact Hw.
  destruct (events w !! e) as [[|]|]; try exact Hw.
  unfold sound. cbn [set_threads TMP_THREADS events]. split; [|split].
  - apply Forall_insert; [exact H1|]. exact I.
  - apply Forall_insert; [exact H2|]. exact (proj1 (Forall_lookup _ _) H2 tid t Ht).
  - exact H3.
Qed.

Lemma sound_serve_round tid ready w : sound w -> sound (serve_round tid ready w).
Proof.
  intros Hw. pose proof Hw as (H1 & H2 & H3 & H4). unfold serve_round.
  destruct (TMP_THREADS w !! tid) as [t|] eqn:Ht; [|exact Hw].
  destruct (at_phase t) as [|l e|l|] eqn:Hp; try exact Hw.
  destruct (loops w !! l) as [lp|]; [|exact Hw].
  destruct (run_ready lp ready) as [lp' raised].
  destruct (raised || stopping lp');
    unfold sound, registry_ok; cbn [EVENT_LOOPS TMP_THREADS events loops];
    rewrite length_insert; (split; [|split; [|split]]); try assumption.
  - apply Forall_insert; [exact H1|]. exact I.
  - apply Forall_insert; [exact H2|]. exact (proj1 (Forall_lookup _ _) H2 tid t Ht).
Qed.

Lemma sound_stop_thread tid w : sound w -> sound (stop_thread tid w).
Proof.
  intros Hw. pose proof Hw as (H1 & H2 & H3). unfold stop_thread.
  destruct (TMP_THREADS w !! tid) as [t|] eqn:Ht; [|exact Hw].
  pose proof (proj1 (Forall_lookup _ _) H1 tid t Ht) as Hk.
  unfold stop, event_set. destruct (shutdown_event t) as [ev|] eqn:He.
  - unfold sound. cbn [EVENT_LOOPS TMP_THREADS events loops]. split; [|split].
    + apply Forall_insert.
      * eapply Forall_impl; [exact H1|]. intros t'. apply thread_ok_insert.
      * unfold thread_ok in Hk |- *.
        cbn [set_shutdown_event at_phase shutdown_event].
        destruct (at_phase t) as [|l e|l|]; try exact I; [congruence|].
        destruct Hk as [L [Hk|Hk]]; (split; [now rewrite length_insert|right]).
        -- rewrite He in Hk. injection Hk as ->. now apply list_lookup_insert_eq.
        -- now apply insert_keeps_set.
    + apply Forall_insert; [exact H2|].
      exact (proj1 (Forall_lookup _ _) H2 tid t Ht).
    + exact H3.
  - unfold sound. cbn [EVENT_LOOPS TMP_THREADS events loops].
    rewrite list_insert_id by exact Ht. exact Hw.
Qed.

Lemma sound_lookup_or_spawn name w : sound w -> sound (snd (lookup_or_spawn name w)).
Proof.
  intros H. unfold lookup_or_spawn.
  destruct (EVENT_LOOPS w !! name); [exact H|]. cbn [snd].
  apply sound_spawn; [reflexivity|exact H].
Qed.

Lemma sound_lookup_only name w : sound w -> sound (lookup_only name w).
Proof.
  intros H. unfold lookup_only. now destruct (EVENT_LOOPS w !! name).
Qed.

Lemma sound_spawn_after_miss name w : sound w -> sound (spawn_after_miss name w).
Proof.
  intros H. unfold spawn_after_miss.
  destruct (take_out name (missed w)) as [callers|]; [|exact H].
  apply (sound_spawn (Some (RegisterLoop name)) None (set_missed w callers));
    [reflexivity|exact H].
Qed.

Lemma sound_act w a : sound w -> sound (act w a).
Proof.
  destruct a as [tid|name|name|name]; cbn [act];
    [apply sound_run_func_enter|apply sound_lookup_or_spawn
    |apply sound_lookup_only|apply sound_spawn_after_miss].
Qed.

Lemma sound_sleep seconds during w : sound w -> sound (sleep seconds during w).
Proof.
  intros H. assert (H' : sound (foldl act w during)).
  { revert w H. induction during as [|a during IH]; intros w H; [exact H|].
    cbn [foldl]. now apply IH, sound_act. }
  exact H'.
Qed.

Lemma sound_get_named_event_loop name during w :
  sound w -> sound (snd (get_named_event_loop name during w)).
Proof.
  intros H. unfold get_named_event_loop.
  destruct (EVENT_LOOPS w !! name); [exact H|]. cbn [run_async snd].
  apply sound_sleep. now apply (sound_spawn (Some (RegisterLoop name)) None w).
Qed.

Lemma sound_apply_op w o : sound w -> sound (apply_op w o).
Proof.
  destruct o; cbn [apply_op];
    auto using sound_run_func_enter, sound_resume, sound_serve_round,
      sound_stop_thread, sound_get_named_event_loop, sound_lookup_or_spawn,
      sound_sleep, sound_lookup_only, sound_spawn_after_miss.
Qed.

Lemma sound_perform w a : sound w -> sound (perform w a).
Proof.
  destruct a as [func l|o]; cbn [perform]; [|apply sound_apply_op].
  apply sound_spawn. now destruct func.
Qed.

Lemma sound_foldl_perform acts : forall w, sound w -> sound (foldl perform w acts).
Proof.
  induction acts as [|a acts IH]; intros w H; [exact H|].
  cbn [foldl]. now apply IH, sound_perform.
Qed.

Lemma sound_history acts : sound (history acts).
Proof. apply sound_foldl_perform, sound_empty. Qed.

(** Property X10.  A [stop()] that comes before the thread has entered
    [run_func] is lost: it changes nothing, and when the thread is scheduled
    afterwards it makes its shutdown event, which is not set. *)
Theorem stop_before_run_func_is_lost acts tid :
  phase_of tid (history acts) = Some Started ->
  stop_thread tid (history acts) = history acts
  /\ exists t,
       TMP_THREADS (run_func_enter tid (stop_thread tid (history acts))) !! tid
       = Some t
       /\ shutdown_event t = Some (length (events (history acts)))
       /\ events (run_func_enter tid (stop_thread tid (history acts)))
          !! length (events (history acts)) = Some false.
Proof.
  intros Hp. destruct (sound_history acts) as (H1 & _).
  set (w := history acts) in *. unfold phase_of in Hp.
  destruct (TMP_THREADS w !! tid) as [t|] eqn:Ht; [|discriminate].
  injection Hp as Hp.
  pose proof (proj1 (Forall_lookup _ _) H1 tid t Ht) as Hk.
  unfold thread_ok in Hk. rewrite Hp in Hk.
  assert (E : stop_thread tid w = w).
  { unfold stop_thread, stop. rewrite Ht, Hk. destruct w.
    cbn [EVENT_LOOPS TMP_THREADS events loops clock] in *.
    now rewrite list_insert_id. }
  rewrite E. split; [reflexivity|].
  unfold run_func_enter. rewrite Ht, Hp.
  destruct (match loop t with Some l => _ | None => _ end) as [l ls].
  cbn [TMP_THREADS events]. eexists. split; [|split].
  - apply list_lookup_insert_eq. now apply lookup_lt_Some in Ht.
  - reflexivity.
  - now rewrite lookup_app_r, Nat.sub_diag.
Qed.


(** Property X12.  Two names never share a loop, and every handle of the
    registry is a loop that exists. *)
Theorem named_loops_are_distinct acts n1 n2 l1 l2 :
  EVENT_LOOPS (history acts) !! n1 = Some l1 ->
  EVENT_LOOPS (history acts) !! n2 = Some l2 ->
  is_Some (loops (history acts) !! l1) /\ (l1 = l2 -> n1 = n2).
Proof.
  intros E1 E2. destruct (sound_history acts) as (_ & _ & H3 & H4). split.
  - apply lookup_lt_is_Some. exact (H3 _ _ E1).
  - intros <-. exact (H4 _ _ _ E1 E2).
Qed.

Lemma stop_before_run_func_is_lost_witness :
  stop_thread 0 (history [Spawn (Some (Some UntilShutdown)) None])
  = history [Spawn (Some (Some UntilShutdown)) None]
  /\ exists t,
       TMP_THREADS (run_func_enter 0
                      (stop_thread 0 (history [Spawn (Some (Some UntilShutdown)) None])))
         !! 0 = Some t
       /\ shutdown_event t
          = Some (length (events (history [Spawn (Some (Some UntilShutdown)) None])))
       /\ events (run_func_enter 0
                    (stop_thread 0 (history [Spawn (Some (Some UntilShutdown)) None])))
          !! length (events (history [Spawn (Some (Some UntilShutdown)) None]))
          = Some false.
Proof.
  exact (stop_before_run_func_is_lost
           [Spawn (Some (Some UntilShutdown)) None] 0 eq_refl).
Defined.


Lemma named_loops_are_distinct_witness :
  is_Some (loops (history [Step (Call "a" [Runs 0]); Step (Call "b" [Runs 1])]) !! 0)
  /\ (0 = 1 -> "a" = "b").
Proof.
  exact (named_loops_are_distinct
           [Step (Call "a" [Runs 0]); Step (Call "b" [Runs 1])] "a" "b" 0 1
           eq_refl eq_refl).
Defined.

Lemma has_entry_run_func_enter name tid w :
  has_entry name w -> has_entry name (run_func_enter tid w).
Proof.
  unfold has_entry, run_func_enter. intros H.
  destruct (TMP_THREADS w !! tid) as [t|]; [|exact H].
  destruct (at_phase t); try exact H.
  destruct (match loop t with Some l => _ | None => _ end) as [l ls].
  cbn [EVENT_LOOPS]. destruct (async_func_gen t) as [[n|c]|]; try exact H.
  apply lookup_insert_is_Some. destruct (decide (n = name)); auto.
Qed.

Lemma has_entry_act name w a : has_entry name w -> has_entry name (act w a).
Proof.
  destruct a as [tid|n|n|n]; cbn [act]; [apply has_entry_run_func_enter|..];
    unfold has_entry.
  - now rewrite lookup_or_spawn_registry.
  - now rewrite (proj1 (lookup_only_threads n w)).
  - now rewrite spawn_after_miss_registry.
Qed.

Lemma has_entry_sleep name seconds during w :
  has_entry name w -> has_entry name (sleep seconds during w).
Proof.
  unfold has_entry at 2. rewrite sleep_registry. revert w.
  induction during as [|a during IH]; intros w H; [exact H|].
  cbn [foldl]. now apply IH, has_entry_act.
Qed.

Lemma has_entry_apply_op name w o : has_entry name w -> has_entry name (apply_op w o).
Proof.
  intros H.
  destruct o as [tid|tid|tid ready|tid|n during|n|seconds|n|n]; cbn [apply_op].
  - now apply has_entry_run_func_enter.
  - unfold has_entry, resume. destruct (TMP_THREADS w !! tid) as [t|]; [|exact H].
    destruct (at_phase t) as [|l ev|l|]; try exact H.
    now destruct (events w !! ev) as [[|]|].
  - unfold has_entry, serve_round. destruct (TMP_THREADS w !! tid) as [t|]; [|exact H].
    destruct (at_phase t) as [|l ev|l|]; try exact H.
    destruct (loops w !! l) as [lp|]; [|exact H].
    destruct (run_ready lp ready) as [lp' raised].
    now destruct (raised || stopping lp').
  - unfold has_entry, stop_thread. destruct (TMP_THREADS w !! tid) as [t|]; [|exact H].
    now destruct (stop t (events w)) as [[t' es']|].
  - unfold get_named_event_loop. destruct (EVENT_LOOPS w !! n); [exact H|].
    cbn [run_async snd]. now apply has_entry_sleep.
  - unfold has_entry. now rewrite lookup_or_spawn_registry.
  - now apply has_entry_sleep.
  - apply (has_entry_act name w (Misses n) H).
  - apply (has_entry_act name w (Starts n) H).
Qed.

Lemma has_entry_perform name w a : has_entry name w -> has_entry name (perform w a).
Proof. destruct a as [func l|o]; [trivial|apply has_entry_apply_op]. Qed.

Lemma has_entry_foldl_perform name acts : forall w,
  has_entry name w -> has_entry name (foldl perform w acts).
Proof.
  induction acts as [|a acts IH]; intros w H; [exact H|].
  cbn [foldl]. now apply IH, has_entry_perform.
Qed.

(** Property X13.  Nothing removes an entry of the registry: once a name has a
    handle, whatever the program does afterwards, a call for the name
    returns a handle at once, without raising [KeyError] and without
    starting a thread. *)
Theorem registry_entries_are_never_removed w acts name l :
  EVENT_LOOPS w !! name = Some l ->
  exists l',
    EVENT_LOOPS (foldl perform w acts) !! name = Some l'
    /\ forall during,
         get_named_event_loop name during (foldl perform w acts)
         = (Returns l', foldl perform w acts).
Proof.
  intros H. destruct (has_entry_foldl_perform name acts w) as [l' Hl'];
    [now exists l|].
  exists l'. split; [exact Hl'|]. intros during. now apply get_named_event_loop_hit.
Qed.

Lemma registry_entries_are_never_removed_witness :
  exists l',
    EVENT_LOOPS (foldl perform settled_world
                   [Step (Call "a" []); Step (Stop 0); Spawn None None;
                    Step (Enter "b"); Step (Schedule 2)]) !! "a" = Some l'
    /\ forall during,
         get_named_event_loop "a" during
           (foldl perform settled_world
              [Step (Call "a" []); Step (Stop 0); Spawn None None;
               Step (Enter "b"); Step (Schedule 2)])
         = (Returns l',
            foldl perform settled_world
              [Step (Call "a" []); Step (Stop 0); Spawn None None;
               Step (Enter "b"); Step (Schedule 2)]).
Proof.
  exact (registry_entries_are_never_removed settled_world
           [Step (Call "a" []); Step (Stop 0); Spawn None None;
            Step (Enter "b"); Step (Schedule 2)] "a" 0 eq_refl).
Defined.

End AsyncUtils.
